(** * job.Group: a bounded-time concurrent task runner (group.go)

    The Go program launches one goroutine per task, a goroutine that waits
    for the WaitGroup, and a collector goroutine.  The embedding below is an
    interleaving semantics: every goroutine is a program counter over the
    statements of group.go, channels are FIFO buffers with a closed flag, and
    a scheduler action picks which goroutine (or which environment event:
    the timer of [context.WithTimeout], the parent context) moves next.  A
    [select] with several ready cases takes the case the action names, as
    Go chooses among ready cases at random. *)

From stdpp Require Import base tactics option list strings gmap.
From Stdlib Require Import ZArith Lia.

Open Scope string_scope.
Open Scope list_scope.

#[local] Set Warnings "-clear-no-such-hyp".

(** ** Data model *)

(** [interface{}] payloads and [error] values are represented by their
    printed form; a nil [error] is [None]. *)
Definition iface := string.
Definition goerror := string.

(** type Result struct { Value interface{}; Error error } *)
Record Result := mkResult { Value : iface; Error : option goerror }.

(** type GroupResult struct { Results []Result; Error error }.  A nil slice
    and an empty slice are both the empty list. *)
Record GroupResult := mkGroupResult { Results : list Result; GroupError : option goerror }.

(** What a call of [t.Execute()] does: it returns a pair, it panics with a
    value (printed with %v) while [debug.Stack()] would give [stack], or it
    never returns. *)
Inductive ExecuteBehaviour :=
| Returns (v : iface) (e : option goerror)
| Panics (r : string) (stack : string)
| Hangs.

(** What a call of [TimeoutHandler(ret, err)] does. *)
Inductive HandlerBehaviour :=
| HReturns
| HPanics (r : string) (stack : string)
| HHangs.

(** A value of interface type [Tasker].  [TimeoutHandler] is [Some _] exactly
    when the dynamic type also implements [TaskTimeout], which is what the
    type assertion [t.(TaskTimeout)] tests.  [TaskName] is the name the
    concrete type gives itself (the field [name] of [test_st] in the tests);
    the interface has no method that exposes it. *)
Record Tasker := mkTasker {
  TaskName : string;
  Execute : ExecuteBehaviour;
  TimeoutHandler : option HandlerBehaviour;
}.

(** What a call of the logger's [Error] method does: it returns, it
    panics, or it never returns. *)
Inductive LogBehaviour := LogReturns | LogPanics | LogHangs.

(** A value of interface type [Logger].  [nilLog] is the nil interface,
    which [WithLog] accepts like any other value; [defaultLog] prints with
    [fmt.Println]; a logger of the caller is identified by who receives the
    calls and does there what its author wrote. *)
Inductive Logger :=
| nilLog
| defaultLog
| customLog (id : string) (b : LogBehaviour).

(** [l.Error(message, err, data)]: a method call on the nil interface
    panics with a nil pointer dereference. *)
Definition log_Error (l : Logger) : LogBehaviour :=
  match l with
  | nilLog => LogPanics
  | defaultLog => LogReturns
  | customLog _ b => b
  end.

(** A parent [context.Context]: the background context is never done, any
    other context may be cancelled by its owner at any time. *)
Inductive Context := Background | Cancellable (cancelled : bool).

(** ** Options and construction *)

Record options := mkOptions {
  opt_Log : Logger;
  opt_Duration : Z;
  opt_CollectRet : bool;
  opt_Ctx : option Context;
}.

Inductive Option :=
| logOption (l : Logger)
| durationOption (d : Z)
| collectRetOption (c : bool)
| ctxOption (c : option Context).

Definition bind (opt : Option) (o : options) : options :=
  match opt with
  | logOption l => mkOptions l (opt_Duration o) (opt_CollectRet o) (opt_Ctx o)
  | durationOption d => mkOptions (opt_Log o) d (opt_CollectRet o) (opt_Ctx o)
  | collectRetOption c => mkOptions (opt_Log o) (opt_Duration o) c (opt_Ctx o)
  | ctxOption c => mkOptions (opt_Log o) (opt_Duration o) (opt_CollectRet o) c
  end.

Definition WithLog (l : Logger) : Option := logOption l.
Definition WithDuration (d : Z) : Option := durationOption d.
(** [WithCtx] stores whatever it is given, nil ([None]) included. *)
Definition WithCtx (c : option Context) : Option := ctxOption c.
Definition WithCollectRet : Option := collectRetOption true.

(** The fields of [Group] other than the mutex and the WaitGroup; the
    WaitGroup counter lives in the state of an execution. *)
Record Group := mkGroup {
  name : string;
  tasks : list Tasker;
  timeout : Z;
  collectResult : bool;
  log : Logger;
  ctx : option Context;
}.

Definition NewTaskGroup (nm : string) (opts : list Option) : Group :=
  let defaultOptions :=
    foldl (fun o opt => bind opt o) (mkOptions defaultLog 0%Z false None) opts in
  mkGroup nm [] (opt_Duration defaultOptions) (opt_CollectRet defaultOptions)
          (opt_Log defaultOptions) (opt_Ctx defaultOptions).

Definition AddTasks (ts : list Tasker) (tg : Group) : Group :=
  mkGroup (name tg) (tasks tg ++ ts) (timeout tg) (collectResult tg) (log tg) (ctx tg).

Definition AddTask (t : Tasker) (tg : Group) : Group := AddTasks [t] tg.

Definition Reset (tg : Group) : Group :=
  mkGroup (name tg) [] (timeout tg) (collectResult tg) (log tg) None.


Definition isTimeout (tg : Group) : bool := (0 <? timeout tg)%Z.

Definition check (tg : Group) : option goerror :=
  if (length (tasks tg) =? 0)%nat then Some "no tasks to execute"
  else if collectResult tg && negb (isTimeout tg)
       then Some "no timeout set for result collection"
       else None.

(** ** Channels *)

Record Chan (A : Type) := mkChan { buf : list A; cap : nat; closed : bool }.
Arguments mkChan {A} _ _ _.
Arguments buf {A} _.
Arguments cap {A} _.
Arguments closed {A} _.

Definition make_chan {A} (n : nat) : Chan A := mkChan [] n false.

Inductive SendOutcome (A : Type) :=
| SendOk (c : Chan A)
| SendPanic
| SendBlock.
Arguments SendOk {A} _.
Arguments SendPanic {A}.
Arguments SendBlock {A}.

(** [c <- x]: a send on a closed channel panics, a send on a full buffer of
    a channel nobody receives from blocks. *)
Definition chan_send {A} (c : Chan A) (x : A) : SendOutcome A :=
  if closed c then SendPanic
  else if (length (buf c) <? cap c)%nat then SendOk (mkChan (buf c ++ [x]) (cap c) false)
       else SendBlock.

(** In a [select], a send case can proceed when the send would not block. *)
Definition send_ready {A} (c : Chan A) : bool :=
  closed c || (length (buf c) <? cap c)%nat.

(** [close(c)]: [None] is the panic of closing a closed channel. *)
Definition chan_close {A} (c : Chan A) : option (Chan A) :=
  if closed c then None else Some (mkChan (buf c) (cap c) true).

(** ** Goroutines *)

(** The program points of the worker closure of [run] (lines 276-311). *)
Inductive WorkerPc :=
| WExecute
| WSelect (ret : Result)
| WRace (ret : Result)
| WTimeout (ret : Result)
| WBlocked
| WRecover (r : option (string * string))
| WWgDone
| WExit.

(** A worker goroutine with the arguments [t] and [i] it was started with. *)
Record Worker := mkWorker { w_task : Tasker; w_index : nat; w_pc : WorkerPc }.

(** go func() { tg.wg.Wait(); close(done) }() *)
Inductive WaiterPc := WtWait | WtClose | WtExit.

(** The goroutine of lines 240-250, with [collectResults] inlined. *)
Inductive CollectorPc :=
| CStart
| CSelect
| CCloseRet
| CDrain (results : list Result)
| CSend (results : list Result)
| CDeferCancel
| CDeferClose
| CExit.

(** The context [takeContext] derives for one run: whether it carries the
    timer of [context.WithTimeout], whether its parent can still cancel it,
    and whether [ctx.Done()] is closed. *)
Record RunCtx := mkRunCtx { has_timer : bool; has_parent : bool; is_done : bool }.

Record State := mkState {
  ch : Chan GroupResult;
  retChan : Chan Result;
  done : Chan unit;
  rctx : RunCtx;
  wg : nat;
  workers : list Worker;
  waiter : option WaiterPc;
  collector : option CollectorPc;
  crashed : bool;
}.

(** ** Observable events *)

Inductive LogValue := LStr (s : string) | LInt (n : nat).

(** One call [tg.log.Error(message, err, data)] that returned. *)
Record LogCall := mkLogCall {
  lc_logger : Logger;
  lc_message : string;
  lc_err : goerror;
  lc_data : gmap string LogValue;
}.

Inductive Event :=
| EvSend (i : nat) (ret : Result)
| EvSendOnClosed (i : nat)
| EvTimeoutHandler (i : nat) (v : iface) (e : option goerror)
| EvLogError (i : nat) (c : LogCall)
| EvWgDone (i : nat)
| EvCancel
| EvCloseRetChan
| EvCloseDone
| EvDeliver (gr : GroupResult)
| EvCloseCh.

(** What the scheduler or the environment does next.  [pick_done] is the
    case a worker's inner [select] takes when both cases are ready. *)
Inductive Action :=
| AWorker (i : nat) (pick_done : bool)
| AWaiter
| ACollector
| ADeadline
| AParentCancel.

(** ** State updates *)

Definition set_ch (c : Chan GroupResult) (s : State) : State :=
  mkState c (retChan s) (done s) (rctx s) (wg s) (workers s) (waiter s) (collector s) (crashed s).
Definition set_retChan (c : Chan Result) (s : State) : State :=
  mkState (ch s) c (done s) (rctx s) (wg s) (workers s) (waiter s) (collector s) (crashed s).
Definition set_done (c : Chan unit) (s : State) : State :=
  mkState (ch s) (retChan s) c (rctx s) (wg s) (workers s) (waiter s) (collector s) (crashed s).
Definition ctx_done (s : State) : bool := is_done (rctx s).

(** [cancel()], the timer firing and the parent being cancelled all close
    [ctx.Done()]; closing it again changes nothing. *)
Definition set_ctx_done (s : State) : State :=
  mkState (ch s) (retChan s) (done s)
          (mkRunCtx (has_timer (rctx s)) (has_parent (rctx s)) true) (wg s) (workers s) (waiter s) (collector s) (crashed s).
Definition set_wg (n : nat) (s : State) : State :=
  mkState (ch s) (retChan s) (done s) (rctx s) n (workers s) (waiter s) (collector s) (crashed s).
Definition set_pc (i : nat) (w : Worker) (pc : WorkerPc) (s : State) : State :=
  mkState (ch s) (retChan s) (done s) (rctx s) (wg s)
          (<[i := mkWorker (w_task w) (w_index w) pc]> (workers s))
          (waiter s) (collector s) (crashed s).
Definition set_waiter (pc : WaiterPc) (s : State) : State :=
  mkState (ch s) (retChan s) (done s) (rctx s) (wg s) (workers s) (Some pc) (collector s) (crashed s).
Definition set_collector (pc : CollectorPc) (s : State) : State :=
  mkState (ch s) (retChan s) (done s) (rctx s) (wg s) (workers s) (waiter s) (Some pc) (crashed s).
Definition crash (s : State) : State :=
  mkState (ch s) (retChan s) (done s) (rctx s) (wg s) (workers s) (waiter s) (collector s) true.

(** ** The worker goroutine (run, lines 276-311) *)

(** The byte '\n' (10). *)
Definition LF : Ascii.ascii := Ascii.Ascii false true false true false false false false.

(** Lines 280-283: [bytes.IndexByte(stack, '\n')] and the slice after it;
    [None] when the stack has no newline. *)
Fixpoint after_first_line (stack : string) : option string :=
  match stack with
  | EmptyString => None
  | String c rest => if Ascii.eqb c LF then Some rest else after_first_line rest
  end.

Definition log_stack (stack : string) : string :=
  match after_first_line stack with Some rest => rest | None => stack end.

(** Lines 285-290. *)
Definition panic_log (tg : Group) (i : nat) (r stack : string) : LogCall :=
  mkLogCall (log tg) "task run error" r
    (<["name" := LStr (name tg)]> (<["i" := LInt i]> (<["stack" := LStr (log_stack stack)]> ∅))).

(** What [debug.Stack()] returns in the deferred function after the runtime
    panic of a send on a closed channel. *)
Definition send_closed_stack : string :=
  "goroutine 1 [running]:" ++ String LF "runtime.chansend".

(** Lines 299-301 and 306-308: the capability query and the call. *)
Definition timeout_path (i : nat) (w : Worker) (ret : Result) (s : State)
  : State * list Event :=
  match TimeoutHandler (w_task w) with
  | None => (set_pc i w (WRecover None) s, [])
  | Some HReturns =>
      (set_pc i w (WRecover None) s, [EvTimeoutHandler (w_index w) (Value ret) (Error ret)])
  | Some (HPanics r stack) =>
      (set_pc i w (WRecover (Some (r, stack))) s,
       [EvTimeoutHandler (w_index w) (Value ret) (Error ret)])
  | Some HHangs =>
      (set_pc i w WBlocked s, [EvTimeoutHandler (w_index w) (Value ret) (Error ret)])
  end.

(** Line 304, [retChan <- ret] once the select has taken this case. *)
Definition send_case (i : nat) (w : Worker) (ret : Result) (s : State)
  : option (State * list Event) :=
  match chan_send (retChan s) ret with
  | SendOk c => Some (set_pc i w (WRecover None) (set_retChan c s), [EvSend (w_index w) ret])
  | SendPanic =>
      Some (set_pc i w (WRecover (Some ("send on closed channel", send_closed_stack))) s,
            [EvSendOnClosed (w_index w)])
  | SendBlock => None
  end.

(** One step of worker [i].  At [WRecover (Some _)] a panic has been
    recovered and the logger is called; the worker goes on to [wg.Done] only
    when that call returns. *)
Definition step_worker (tg : Group) (i : nat) (pick_done : bool) (s : State)
  : option (State * list Event) :=
  w ← workers s !! i;
  match w_pc w with
  | WExecute =>
      match Execute (w_task w) with
      | Returns v e => Some (set_pc i w (WSelect (mkResult v e)) s, [])
      | Panics r stack => Some (set_pc i w (WRecover (Some (r, stack))) s, [])
      | Hangs => None
      end
  | WSelect ret =>
      if ctx_done s then Some (set_pc i w (WTimeout ret) s, [])
      else Some (set_pc i w (WRace ret) s, [])
  | WRace ret =>
      match send_ready (retChan s), ctx_done s with
      | false, false => None
      | true, false => send_case i w ret s
      | false, true => Some (set_pc i w (WTimeout ret) s, [])
      | true, true =>
          if pick_done then Some (set_pc i w (WTimeout ret) s, [])
          else send_case i w ret s
      end
  | WTimeout ret => Some (timeout_path i w ret s)
  | WBlocked => None
  | WRecover None => Some (set_pc i w WWgDone s, [])
  | WRecover (Some (r, stack)) =>
      match log_Error (log tg) with
      | LogReturns =>
          Some (set_pc i w WWgDone s,
                [EvLogError (w_index w) (panic_log tg (w_index w) r stack)])
      | LogPanics | LogHangs => None
      end
  | WWgDone =>
      match wg s with
      | O => Some (crash s, [])
      | S n => Some (set_pc i w WExit (set_wg n s), [EvWgDone (w_index w)])
      end
  | WExit => None
  end.

(** ** The waiter goroutine (lines 235-238) *)

Definition step_waiter (s : State) : option (State * list Event) :=
  pc ← waiter s;
  match pc with
  | WtWait => if (wg s =? 0)%nat then Some (set_waiter WtClose s, []) else None
  | WtClose =>
      match chan_close (done s) with
      | Some c => Some (set_waiter WtExit (set_done c s), [EvCloseDone])
      | None => Some (crash s, [])
      end
  | WtExit => None
  end.

(** ** The collector goroutine (lines 240-250 and collectResults) *)

Definition step_collector (tg : Group) (s : State) : option (State * list Event) :=
  pc ← collector s;
  match pc with
  | CStart =>
      if negb (isTimeout tg) then Some (set_collector CSelect (set_ctx_done s), [EvCancel])
      else Some (set_collector CSelect s, [])
  | CSelect =>
      if ctx_done s || closed (done s) then Some (set_collector CCloseRet s, []) else None
  | CCloseRet =>
      match chan_close (retChan s) with
      | Some c =>
          Some (set_collector (if collectResult tg then CDrain [] else CSend [])
                              (set_retChan c s), [EvCloseRetChan])
      | None => Some (crash s, [])
      end
  | CDrain results =>
      match buf (retChan s) with
      | result :: rest =>
          Some (set_collector (CDrain (results ++ [result]))
                  (set_retChan (mkChan rest (cap (retChan s)) (closed (retChan s))) s), [])
      | [] => if closed (retChan s) then Some (set_collector (CSend results) s, []) else None
      end
  | CSend results =>
      match chan_send (ch s) (mkGroupResult results None) with
      | SendOk c => Some (set_collector CDeferCancel (set_ch c s),
                          [EvDeliver (mkGroupResult results None)])
      | SendPanic => Some (crash s, [])
      | SendBlock => None
      end
  | CDeferCancel => Some (set_collector CDeferClose (set_ctx_done s), [EvCancel])
  | CDeferClose =>
      match chan_close (ch s) with
      | Some c => Some (set_collector CExit (set_ch c s), [EvCloseCh])
      | None => Some (crash s, [])
      end
  | CExit => None
  end.

(** ** The environment *)

Definition parent_cancellable (tg : Group) : bool :=
  match ctx tg with Some (Cancellable _) => true | _ => false end.

Definition parent_cancelled (tg : Group) : bool :=
  match ctx tg with Some (Cancellable c) => c | _ => false end.

(** takeContext (lines 186-198): [context.WithTimeout] when a positive
    timeout is configured, [context.WithCancel] otherwise, over the group's
    context or the background context. *)
Definition takeContext (tg : Group) : RunCtx :=
  mkRunCtx (isTimeout tg) (parent_cancellable tg) (parent_cancelled tg).

(** The timer fires. *)
Definition step_deadline (s : State) : option (State * list Event) :=
  if has_timer (rctx s) then Some (set_ctx_done s, []) else None.

(** The owner of the parent context cancels it. *)
Definition step_parent (s : State) : option (State * list Event) :=
  if has_parent (rctx s) then Some (set_ctx_done s, []) else None.

(** One scheduling step; a crashed program takes no step. *)
Definition step (tg : Group) (s : State) (a : Action) : option (State * list Event) :=
  if crashed s then None
  else match a with
       | AWorker i pick_done => step_worker tg i pick_done s
       | AWaiter => step_waiter s
       | ACollector => step_collector tg s
       | ADeadline => step_deadline s
       | AParentCancel => step_parent s
       end.

(** The steps that end the process.  The logger is called (line 286) in the
    deferred function after [recover()] has returned, so a panic in that
    call, the nil dereference of a nil logger included, is recovered by
    nobody: the runtime runs the remaining deferred [wg.Done] and exits.
    Such a step has no next state and [step] gives none.  A logger call that
    never returns has none either, but there the process lives on without
    this worker. *)
Definition fatal (tg : Group) (s : State) (a : Action) : bool :=
  match a with
  | AWorker i _ =>
      match workers s !! i with
      | Some w =>
          match w_pc w, log_Error (log tg) with
          | WRecover (Some _), LogPanics => true
          | _, _ => false
          end
      | None => false
      end
  | _ => false
  end.

Fixpoint exec (tg : Group) (s : State) (sched : list Action) : option (State * list Event) :=
  match sched with
  | [] => Some (s, [])
  | a :: rest =>
      match step tg s a with
      | None => None
      | Some (s1, evs1) =>
          match exec tg s1 rest with
          | None => None
          | Some (s2, evs2) => Some (s2, evs1 ++ evs2)
          end
      end
  end.

(** ** ExecChan *)

(** [run] starts one goroutine per task, in index order. *)
Definition run (ts : list Tasker) : list Worker :=
  imap (fun i t => mkWorker t i WExecute) ts.

(** The state in which [ExecChan] returns [ch], and what it did on the way.
    A goroutine that was started and has not moved yet cannot be told from
    one that is not started yet, so all goroutines are present from here.
    When [check] fails no context is derived and nothing is started. *)
Definition ExecChan (tg : Group) : State * list Event :=
  match check tg with
  | Some err =>
      (mkState (mkChan [mkGroupResult [] (Some err)] 1 false)
               (make_chan 0) (make_chan 0) (mkRunCtx false false false) 0 [] None None false,
       [EvDeliver (mkGroupResult [] (Some err))])
  | None =>
      (mkState (make_chan 1) (make_chan (length (tasks tg))) (make_chan 0)
               (takeContext tg) (length (tasks tg)) (run (tasks tg))
               (Some WtWait) (Some CStart) false,
       [])
  end.

(** An execution of the group under a schedule. *)
Definition execution (tg : Group) (sched : list Action) : option (State * list Event) :=
  match exec tg (ExecChan tg).1 sched with
  | Some (s, evs) => Some (s, (ExecChan tg).2 ++ evs)
  | None => None
  end.

(** [Execute] receives once from the channel: the first outcome sent. *)
Definition delivered (evs : list Event) : list GroupResult :=
  omap (fun ev => match ev with EvDeliver gr => Some gr | _ => None end) evs.

Definition GroupExecute (tg : Group) (sched : list Action)
  : option (list Result * option goerror) :=
  match execution tg sched with
  | Some (_, evs) =>
      match delivered evs with
      | gr :: _ => Some (Results gr, GroupError gr)
      | [] => None
      end
  | None => None
  end.

(** ** Reading an event trace *)

(** The sends into [retChan] that succeeded, oldest first. *)
Definition sends (evs : list Event) : list (nat * Result) :=
  omap (fun ev => match ev with EvSend i r => Some (i, r) | _ => None end) evs.

Definition sent_results (evs : list Event) : list Result := (sends evs).*2.

(** What happened on the outcome channel [ch]. *)
Definition is_ch_event (ev : Event) : bool :=
  match ev with EvDeliver _ | EvCloseCh => true | _ => false end.

Definition ch_events (evs : list Event) : list Event := filter is_ch_event evs.

(** The events of worker [j]. *)
Definition concerns (j : nat) (ev : Event) : bool :=
  match ev with
  | EvSend i _ | EvSendOnClosed i | EvTimeoutHandler i _ _ | EvLogError i _ | EvWgDone i =>
      bool_decide (i = j)
  | _ => false
  end.

Definition hist (j : nat) (evs : list Event) : list Event := filter (concerns j) evs.

Definition logs (evs : list Event) : list LogCall :=
  omap (fun ev => match ev with EvLogError _ c => Some c | _ => None end) evs.

Definition handler_calls (evs : list Event) : list (nat * iface * option goerror) :=
  omap (fun ev => match ev with EvTimeoutHandler i v e => Some (i, v, e) | _ => None end) evs.

Definition is_worker_action (a : Action) : bool :=
  match a with AWorker _ _ => true | _ => false end.

(** ** The local protocol of one worker *)

Definition log_events (tg : Group) (j : nat) (r : option (string * string)) : list Event :=
  match r with
  | Some (v, stack) => [EvLogError j (panic_log tg j v stack)]
  | None => []
  end.

(** How a worker can have reached its deferred functions: with which
    recovered value and after which events of its own. *)
Definition before_defer (t : Tasker) (j : nat) (r : option (string * string))
    (h : list Event) : Prop :=
  match r with
  | None =>
      exists v e, Execute t = Returns v e /\
        (h = [EvSend j (mkResult v e)] \/
         (TimeoutHandler t = None /\ h = []) \/
         (TimeoutHandler t = Some HReturns /\ h = [EvTimeoutHandler j v e]))
  | Some (p, stack) =>
      (Execute t = Panics p stack /\ h = []) \/
      (exists v e, Execute t = Returns v e /\
         ((p = "send on closed channel" /\ stack = send_closed_stack /\
           h = [EvSendOnClosed j]) \/
          (TimeoutHandler t = Some (HPanics p stack) /\ h = [EvTimeoutHandler j v e])))
  end.

(** The events of worker [j] so far, by program point. *)
Definition route_ok (tg : Group) (j : nat) (w : Worker) (h : list Event) : Prop :=
  match w_pc w with
  | WExecute => h = []
  | WSelect ret | WRace ret | WTimeout ret =>
      Execute (w_task w) = Returns (Value ret) (Error ret) /\ h = []
  | WBlocked =>
      exists v e, Execute (w_task w) = Returns v e /\
        TimeoutHandler (w_task w) = Some HHangs /\ h = [EvTimeoutHandler j v e]
  | WRecover r => before_defer (w_task w) j r h
  | WWgDone =>
      exists r h0, before_defer (w_task w) j r h0 /\ h = h0 ++ log_events tg j r
  | WExit =>
      exists r h0, before_defer (w_task w) j r h0 /\
        h = h0 ++ log_events tg j r ++ [EvWgDone j]
  end.

Definition exited (w : Worker) : bool :=
  match w_pc w with WExit => true | _ => false end.

(** ** The invariant of a run that passed [check] *)

Definition expected_results (tg : Group) (evs : list Event) : list Result :=
  if collectResult tg then sent_results evs else [].

Definition collector_ok (tg : Group) (s : State) (evs : list Event) : Prop :=
  match collector s with
  | Some CStart =>
      closed (retChan s) = false /\ buf (retChan s) = sent_results evs /\
      ch s = make_chan 1 /\ ch_events evs = []
  | Some CSelect =>
      closed (retChan s) = false /\ buf (retChan s) = sent_results evs /\
      ch s = make_chan 1 /\ ch_events evs = [] /\
      (isTimeout tg = false -> ctx_done s = true)
  | Some CCloseRet =>
      closed (retChan s) = false /\ buf (retChan s) = sent_results evs /\
      ch s = make_chan 1 /\ ch_events evs = [] /\
      (ctx_done s = true \/ forallb exited (workers s) = true)
  | Some (CDrain results) =>
      closed (retChan s) = true /\ collectResult tg = true /\
      results ++ buf (retChan s) = sent_results evs /\
      ch s = make_chan 1 /\ ch_events evs = [] /\
      (ctx_done s = true \/ forallb exited (workers s) = true)
  | Some (CSend results) =>
      closed (retChan s) = true /\ results = expected_results tg evs /\
      ch s = make_chan 1 /\ ch_events evs = [] /\
      (ctx_done s = true \/ forallb exited (workers s) = true)
  | Some CDeferCancel =>
      closed (retChan s) = true /\
      ch s = mkChan [mkGroupResult (expected_results tg evs) None] 1 false /\
      ch_events evs = [EvDeliver (mkGroupResult (expected_results tg evs) None)] /\
      (ctx_done s = true \/ forallb exited (workers s) = true)
  | Some CDeferClose =>
      closed (retChan s) = true /\
      ch s = mkChan [mkGroupResult (expected_results tg evs) None] 1 false /\
      ch_events evs = [EvDeliver (mkGroupResult (expected_results tg evs) None)] /\
      ctx_done s = true
  | Some CExit =>
      closed (retChan s) = true /\
      ch s = mkChan [mkGroupResult (expected_results tg evs) None] 1 true /\
      ch_events evs = [EvDeliver (mkGroupResult (expected_results tg evs) None); EvCloseCh] /\
      ctx_done s = true
  | None => False
  end.

Definition waiter_ok (s : State) : Prop :=
  match waiter s with
  | Some WtWait => closed (done s) = false
  | Some WtClose => closed (done s) = false /\ forallb exited (workers s) = true
  | Some WtExit => closed (done s) = true /\ forallb exited (workers s) = true
  | None => False
  end.

Record Inv (tg : Group) (s : State) (evs : list Event) : Prop := mkInv {
  inv_crashed : crashed s = false;
  inv_timer : has_timer (rctx s) = isTimeout tg;
  inv_length : length (workers s) = length (tasks tg);
  inv_worker : forall j w, workers s !! j = Some w ->
      tasks tg !! j = Some (w_task w) /\ w_index w = j /\ route_ok tg j w (hist j evs);
  inv_cap : cap (retChan s) = length (tasks tg);
  inv_sends : NoDup (sends evs).*1 /\ forall i, i ∈ (sends evs).*1 -> (i < length (tasks tg))%nat;
  inv_wg : wg s = length (filter (fun w => exited w = false) (workers s));
  inv_collector : collector_ok tg s evs;
  inv_waiter : waiter_ok s;
}.

(** ** Basic facts about traces and schedules *)

Lemma sends_app evs1 evs2 : sends (evs1 ++ evs2) = sends evs1 ++ sends evs2.
Proof. apply omap_app. Qed.

Lemma sent_results_app evs1 evs2 :
  sent_results (evs1 ++ evs2) = sent_results evs1 ++ sent_results evs2.
Proof. unfold sent_results. by rewrite sends_app, fmap_app. Qed.

Lemma ch_events_app evs1 evs2 : ch_events (evs1 ++ evs2) = ch_events evs1 ++ ch_events evs2.
Proof. apply filter_app. Qed.

Lemma hist_app j evs1 evs2 : hist j (evs1 ++ evs2) = hist j evs1 ++ hist j evs2.
Proof. apply filter_app. Qed.

Lemma delivered_app evs1 evs2 : delivered (evs1 ++ evs2) = delivered evs1 ++ delivered evs2.
Proof. apply omap_app. Qed.

Lemma logs_app evs1 evs2 : logs (evs1 ++ evs2) = logs evs1 ++ logs evs2.
Proof. apply omap_app. Qed.

Lemma handler_calls_app evs1 evs2 :
  handler_calls (evs1 ++ evs2) = handler_calls evs1 ++ handler_calls evs2.
Proof. apply omap_app. Qed.

Lemma expected_results_same tg evs1 evs2 :
  sends evs2 = [] -> expected_results tg (evs1 ++ evs2) = expected_results tg evs1.
Proof.
  intros H. unfold expected_results, sent_results.
  by rewrite sends_app, H, app_nil_r.
Qed.

Lemma exec_app tg s sched1 sched2 :
  exec tg s (sched1 ++ sched2) =
  match exec tg s sched1 with
  | Some (s1, evs1) =>
      match exec tg s1 sched2 with
      | Some (s2, evs2) => Some (s2, evs1 ++ evs2)
      | None => None
      end
  | None => None
  end.
Proof.
  revert s. induction sched1 as [|a sched1 IH]; intros s; simpl.
  - by destruct (exec tg s sched2) as [[s2 evs2]|].
  - destruct (step tg s a) as [[s1 evs1]|]; [|done].
    rewrite IH. destruct (exec tg s1 sched1) as [[s2 evs2]|]; [|done].
    destruct (exec tg s2 sched2) as [[s3 evs3]|]; [|done].
    by rewrite app_assoc.
Qed.

Lemma exec_cons tg s a sched s1 evs1 s2 evs2 :
  step tg s a = Some (s1, evs1) ->
  exec tg s1 sched = Some (s2, evs2) ->
  exec tg s (a :: sched) = Some (s2, evs1 ++ evs2).
Proof. intros H1 H2. simpl. by rewrite H1, H2. Qed.

(** A property that holds at the start and is kept by every step holds
    after every schedule. *)
Lemma exec_invariant tg (P : State -> list Event -> Prop) :
  (forall s evs a s' e, P s evs -> step tg s a = Some (s', e) -> P s' (evs ++ e)) ->
  forall sched s pre s' evs,
    P s pre -> exec tg s sched = Some (s', evs) -> P s' (pre ++ evs).
Proof.
  intros Hstep. induction sched as [|a sched IH]; intros s pre s' evs HP Hex; simpl in Hex.
  - inversion Hex; subst. by rewrite app_nil_r.
  - destruct (step tg s a) as [[s1 evs1]|] eqn:Hs; [|done].
    destruct (exec tg s1 sched) as [[s2 evs2]|] eqn:He; [|done].
    inversion Hex; subst. rewrite app_assoc. eapply IH; [|done]. eauto.
Qed.

(** ** Workers in a list *)

Lemma forallb_exited_lookup (ws : list Worker) i w :
  forallb exited ws = true -> ws !! i = Some w -> w_pc w = WExit.
Proof.
  intros H Hi. rewrite forallb_forall in H.
  assert (Hin : In w ws) by (apply list_elem_of_In; eapply list_elem_of_lookup_2; done).
  apply H in Hin. unfold exited in Hin. by destruct (w_pc w).
Qed.

Lemma running_insert (ws : list Worker) i w w' :
  ws !! i = Some w -> exited w = false ->
  length (filter (fun w => exited w = false) (<[i := w']> ws)) =
  (if exited w' then
     pred (length (filter (fun w => exited w = false) ws))
   else length (filter (fun w => exited w = false) ws)).
Proof.
  intros Hi Hw.
  destruct (list_elem_of_split_length ws i w Hi) as (l1 & l2 & -> & ->).
  rewrite insert_app_r_alt, Nat.sub_diag by lia. simpl.
  rewrite !filter_app, !filter_cons, !length_app.
  destruct (decide (exited w = false)) as [_|]; [|done].
  destruct (exited w') eqn:Hw'.
  - destruct (decide (true = false)); [done|]. simpl. lia.
  - destruct (decide (false = false)); [|done]. done.
Qed.

Lemma running_pos (ws : list Worker) i w :
  ws !! i = Some w -> exited w = false ->
  (0 < length (filter (fun w => exited w = false) ws))%nat.
Proof.
  intros Hi Hw.
  rewrite <- (take_drop_middle ws i w Hi).
  rewrite filter_app, filter_cons, length_app.
  destruct (decide (exited w = false)); [|done]. simpl. lia.
Qed.

Lemma forallb_exited_running (ws : list Worker) :
  forallb exited ws = true <-> length (filter (fun w => exited w = false) ws) = 0%nat.
Proof.
  induction ws as [|w ws IH]; simpl; [done|].
  rewrite filter_cons. destruct (exited w) eqn:Hw; simpl.
  - destruct (decide (true = false)); [done|]. done.
  - destruct (decide (false = false)); [|done]. simpl. split; [done|lia].
Qed.

Lemma filter_Forall_id {A} (P : A -> Prop) `{!forall x, Decision (P x)} (l : list A) :
  Forall P l -> filter P l = l.
Proof.
  induction 1 as [|x l Hx _ IH]; [done|].
  rewrite filter_cons_True by done. by rewrite IH.
Qed.

Lemma run_lookup ts j w :
  run ts !! j = Some w -> ts !! j = Some (w_task w) /\ w_index w = j /\ w_pc w = WExecute.
Proof.
  unfold run. rewrite list_lookup_imap.
  destruct (ts !! j) as [t|]; simpl; [|done].
  intros [= <-]. done.
Qed.

(** ** Validation *)

Lemma check_None tg :
  check tg = None <->
  tasks tg <> [] /\ (collectResult tg = true -> isTimeout tg = true).
Proof.
  unfold check. destruct (tasks tg) as [|t ts]; simpl; [naive_solver|].
  destruct (collectResult tg), (isTimeout tg); simpl; naive_solver.
Qed.

(** ** The invariant holds when ExecChan returns *)

Lemma inv_init tg : check tg = None -> Inv tg (ExecChan tg).1 [].
Proof.
  intros Hc. unfold ExecChan. rewrite Hc. simpl.
  split; simpl; try done.
  - unfold run. apply length_imap.
  - intros j w Hw. apply run_lookup in Hw as (Ht & Hi & Hpc).
    split_and!; [done..|]. unfold route_ok. by rewrite Hpc.
  - split; [constructor|]. intros i Hi. by apply elem_of_nil in Hi.
  - rewrite filter_Forall_id; [unfold run; by rewrite length_imap|].
    apply Forall_lookup. intros i w Hw.
    apply run_lookup in Hw as (_ & _ & Hpc). unfold exited. by rewrite Hpc.
Qed.

(** ** Framing lemmas for the invariant *)

(** Events a worker emits are its own and never touch [ch]. *)
Definition own (i : nat) (ev : Event) : Prop :=
  concerns i ev = true /\ is_ch_event ev = false.

Lemma hist_own i e : Forall (own i) e -> hist i e = e.
Proof.
  intros H. unfold hist. apply filter_Forall_id.
  eapply Forall_impl; [done|]. intros ev [Hc _]. by rewrite Hc.
Qed.

Lemma hist_other i j e : Forall (own i) e -> i <> j -> hist j e = [].
Proof.
  intros H Hij. unfold hist. induction H as [|ev e [Hc _] _ IH]; [done|].
  rewrite filter_cons_False; [done|].
  destruct ev; simpl in *; try done; case_bool_decide; subst; try done;
    rewrite bool_decide_eq_false_2; try done; by intros [].
Qed.

Lemma ch_events_own i e : Forall (own i) e -> ch_events e = [].
Proof.
  intros H. unfold ch_events. induction H as [|ev e [_ Hc] _ IH]; [done|].
  rewrite filter_cons_False; [done|]. rewrite Hc. by intros [].
Qed.

Lemma sends_hist i evs : i ∈ (sends evs).*1 -> hist i evs <> [].
Proof.
  intros Hi. apply list_elem_of_fmap in Hi as ([i' r] & -> & Hin). simpl.
  apply list_elem_of_omap in Hin as (ev & Hev & Hsome).
  destruct ev; try done. injection Hsome as -> ->.
  intros Hnil.
  assert (EvSend i' r ∈ hist i' evs) as Hin.
  { unfold hist. apply list_elem_of_filter. split; [|done]. simpl.
    by rewrite bool_decide_eq_true_2. }
  rewrite Hnil in Hin. by apply elem_of_nil in Hin.
Qed.

Lemma NoDup_bounded_length (l : list nat) n :
  NoDup l -> (forall i, i ∈ l -> (i < n)%nat) -> (length l <= n)%nat.
Proof.
  intros Hnd Hb.
  replace n with (length (seq 0 n)) by apply length_seq.
  apply submseteq_length, NoDup_submseteq; [done|].
  intros i Hi. apply elem_of_seq. specialize (Hb i Hi). lia.
Qed.

Lemma collector_ok_frame tg s s' evs e :
  collector s' = collector s -> retChan s' = retChan s -> ch s' = ch s ->
  sends e = [] -> ch_events e = [] ->
  (ctx_done s = true -> ctx_done s' = true) ->
  (forallb exited (workers s) = true ->
     ctx_done s' = true \/ forallb exited (workers s') = true) ->
  collector_ok tg s evs -> collector_ok tg s' (evs ++ e).
Proof.
  intros Hcol Hret Hch Hse Hce Hctx Hex.
  assert (Hsr : sent_results (evs ++ e) = sent_results evs).
  { unfold sent_results. by rewrite sends_app, Hse, app_nil_r. }
  assert (Hcc : ch_events (evs ++ e) = ch_events evs).
  { by rewrite ch_events_app, Hce, app_nil_r. }
  unfold collector_ok. rewrite Hcol, Hret, Hch.
  rewrite (expected_results_same tg evs e Hse), Hsr, Hcc.
  destruct (collector s) as [[]|]; naive_solver.
Qed.

(** ** Every step keeps the invariant *)

Lemma inv_worker_step tg s evs i w pc' e s' :
  Inv tg s evs -> workers s !! i = Some w -> exited w = false ->
  workers s' = <[i := mkWorker (w_task w) (w_index w) pc']> (workers s) ->
  ch s' = ch s -> done s' = done s -> rctx s' = rctx s ->
  waiter s' = waiter s -> collector s' = collector s -> crashed s' = false ->
  wg s' = (if exited (mkWorker (w_task w) (w_index w) pc') then pred (wg s) else wg s) ->
  Forall (own i) e ->
  route_ok tg i (mkWorker (w_task w) (w_index w) pc') (hist i evs ++ e) ->
  ((retChan s' = retChan s /\ sends e = []) \/
   (exists ret, closed (retChan s) = false /\
      retChan s' = mkChan (buf (retChan s) ++ [ret]) (cap (retChan s)) false /\
      e = [EvSend i ret] /\ hist i evs = [])) ->
  Inv tg s' (evs ++ e).
Proof.
  intros [Hcr Htm Hlen Hw Hcap Hs Hwg Hcol Hwt] Hi Hex Hws Hch Hdn Hrx Hwt' Hcol' Hcr' Hwg' Hown Hroute Hret.
  assert (Hnotall : forallb exited (workers s) = true -> False).
  { intros Hall. pose proof (forallb_exited_lookup _ _ _ Hall Hi) as Hpc.
    unfold exited in Hex. by rewrite Hpc in Hex. }
  assert (Hctx : ctx_done s' = ctx_done s) by (unfold ctx_done; by rewrite Hrx).
  split.
  - done.
  - by rewrite Hrx.
  - by rewrite Hws, length_insert.
  - intros j w0 Hj. rewrite Hws in Hj. rewrite hist_app.
    destruct (decide (i = j)) as [<-|Hne].
    + rewrite list_lookup_insert_eq in Hj by (eapply lookup_lt_Some; done).
      injection Hj as <-. simpl. destruct (Hw i w Hi) as (Ht & Hidx & _).
      split_and!; [done..|]. by rewrite (hist_own i e Hown).
    + rewrite list_lookup_insert_ne in Hj by done.
      rewrite (hist_other i j e Hown Hne), app_nil_r. by apply Hw.
  - destruct Hret as [[-> _]|(ret & _ & -> & _)]; done.
  - destruct Hret as [[_ Hse]|(ret & _ & _ & -> & Hnil)].
    + by rewrite sends_app, Hse, app_nil_r.
    + rewrite sends_app, fmap_app. simpl. destruct Hs as [Hnd Hb]. split.
      * apply NoDup_app. split_and!; [done| |apply NoDup_singleton].
        intros x Hx Hx'. apply list_elem_of_singleton in Hx' as ->.
        by apply sends_hist in Hx.
      * intros x Hx. apply elem_of_app in Hx as [Hx|Hx]; [by apply Hb|].
        apply list_elem_of_singleton in Hx as ->.
        rewrite <- Hlen. eapply lookup_lt_Some; done.
  - rewrite Hwg', Hws, (running_insert _ _ _ _ Hi Hex), Hwg. by destruct (exited _).
  - destruct Hret as [[Hr Hse]|(ret & Hcl & Hr & -> & Hnil)].
    + eapply collector_ok_frame; try done.
      * by apply (ch_events_own i).
      * by rewrite Hctx.
    + unfold collector_ok in *. rewrite Hcol', Hr, Hch, Hctx. simpl.
      rewrite sent_results_app, ch_events_app. simpl. rewrite app_nil_r.
      unfold sent_results at 2 4 6. simpl.
      rewrite Hcl in Hcol.
      destruct (collector s) as [[]|]; try (by destruct Hcol as [? _]); try done.
      * destruct Hcol as (_ & Hb & ? & ?). split_and!; try done. by rewrite Hb.
      * destruct Hcol as (_ & Hb & ? & ? & ?). split_and!; try done. by rewrite Hb.
      * destruct Hcol as (_ & Hb & ? & ? & [?|Hall]); [|by destruct Hnotall].
        split_and!; try done; [by rewrite Hb|by left].
  - unfold waiter_ok in *. rewrite Hwt', Hdn.
    destruct (waiter s) as [[]|]; naive_solver.
Qed.

Lemma own_send i r : Forall (own i) [EvSend i r].
Proof. repeat constructor; simpl; by rewrite ?bool_decide_eq_true_2. Qed.
Lemma own_send_closed i : Forall (own i) [EvSendOnClosed i].
Proof. repeat constructor; simpl; by rewrite ?bool_decide_eq_true_2. Qed.
Lemma own_handler i v e : Forall (own i) [EvTimeoutHandler i v e].
Proof. repeat constructor; simpl; by rewrite ?bool_decide_eq_true_2. Qed.
Lemma own_log i c : Forall (own i) [EvLogError i c].
Proof. repeat constructor; simpl; by rewrite ?bool_decide_eq_true_2. Qed.
Lemma own_wg_done i : Forall (own i) [EvWgDone i].
Proof. repeat constructor; simpl; by rewrite ?bool_decide_eq_true_2. Qed.
Lemma own_log_events tg i r : Forall (own i) (log_events tg i r).
Proof. destruct r as [[v st]|]; [apply own_log|constructor]. Qed.

Ltac worker_frame HI Hi Hpc :=
  eapply inv_worker_step;
  [exact HI | exact Hi | by unfold exited; rewrite Hpc
  | reflexivity | reflexivity | reflexivity | reflexivity | reflexivity | reflexivity
  | simpl; apply (inv_crashed _ _ _ HI) | simpl; try reflexivity | | | ].

Lemma inv_step_worker tg s evs i c s' e :
  Inv tg s evs -> step_worker tg i c s = Some (s', e) -> Inv tg s' (evs ++ e).
Proof.
  intros HI Hstep. unfold step_worker in Hstep.
  destruct (workers s !! i) as [w|] eqn:Hi; simpl in Hstep; [|done].
  destruct (inv_worker _ _ _ HI i w Hi) as (Ht & Hidx & Hroute).
  unfold route_ok in Hroute.
  destruct (w_pc w) as [|ret|ret|ret| |r| |] eqn:Hpc.
  - (* WExecute *)
    destruct (Execute (w_task w)) as [v er|p st|] eqn:Hexe; [| |done];
      injection Hstep as <- <-; worker_frame HI Hi Hpc;
      [constructor| |left; done|constructor| |left; done];
      unfold route_ok; simpl; rewrite Hroute; simpl.
    + done.
    + left. done.
  - (* WSelect *)
    destruct Hroute as [Hexe Hnil].
    destruct (ctx_done s); injection Hstep as <- <-; worker_frame HI Hi Hpc;
      [constructor| |left; done|constructor| |left; done];
      unfold route_ok; simpl; rewrite Hnil; done.
  - (* WRace *)
    destruct Hroute as [Hexe Hnil].
    assert (Hto : Inv tg (set_pc i w (WTimeout ret) s) (evs ++ [])).
    { worker_frame HI Hi Hpc; [constructor| |left; done].
      unfold route_ok; simpl. by rewrite Hnil. }
    assert (Hsend : forall s' e, send_case i w ret s = Some (s', e) -> Inv tg s' (evs ++ e)).
    { clear Hstep s' e. intros s' e Hsend. unfold send_case, chan_send in Hsend.
      destruct (closed (retChan s)) eqn:Hcl.
      - injection Hsend as <- <-. rewrite Hidx.
        worker_frame HI Hi Hpc; [apply own_send_closed| |left; done].
        unfold route_ok; simpl. rewrite Hnil. simpl. right. destruct ret as [v er].
        exists v, er. split; [done|]. left. done.
      - destruct (length (buf (retChan s)) <? cap (retChan s))%nat; [|done].
        injection Hsend as <- <-. rewrite Hidx.
        worker_frame HI Hi Hpc; [apply own_send| |].
        + unfold route_ok; simpl. rewrite Hnil. simpl. destruct ret as [v er].
          exists v, er. split; [done|]. left. done.
        + right. exists ret. simpl. done. }
    destruct (send_ready (retChan s)), (ctx_done s); [destruct c| | |];
      first [done | by apply Hsend | by injection Hstep as <- <-].
  - (* WTimeout *)
    destruct Hroute as [Hexe Hnil]. destruct ret as [v er]. simpl in Hexe.
    injection Hstep as Hstep. unfold timeout_path in Hstep. rewrite Hidx in Hstep.
    simpl in Hstep.
    destruct (TimeoutHandler (w_task w)) as [[|p st|]|] eqn:Hh; injection Hstep as <- <-;
      worker_frame HI Hi Hpc;
      [apply own_handler| |left; done|apply own_handler| |left; done
      |apply own_handler| |left; done|constructor| |left; done];
      unfold route_ok; simpl; rewrite Hnil; simpl.
    + exists v, er. split; [done|]. right. right. done.
    + right. exists v, er. split; [done|]. right. done.
    + exists v, er. done.
    + exists v, er. split; [done|]. right. left. done.
  - (* WBlocked *) done.
  - (* WRecover *)
    destruct r as [[p st]|]; [destruct (log_Error (log tg)); [|done|done]|];
      injection Hstep as <- <-; rewrite ?Hidx;
      worker_frame HI Hi Hpc;
      [apply own_log| |left; done|constructor| |left; done];
      unfold route_ok; simpl.
    + exists (Some (p, st)), (hist i evs). done.
    + exists None, (hist i evs). done.
  - (* WWgDone *)
    destruct (wg s) as [|n] eqn:Hwg.
    + exfalso. pose proof (inv_wg _ _ _ HI) as Hw'.
      assert (Hrun : exited w = false) by (unfold exited; by rewrite Hpc).
      pose proof (running_pos _ _ _ Hi Hrun). lia.
    + injection Hstep as <- <-. rewrite Hidx.
      worker_frame HI Hi Hpc; [by rewrite Hwg|apply own_wg_done| |left; done].
      unfold route_ok; simpl. destruct Hroute as (r & h0 & Hb & ->).
      exists r, h0. split; [done|]. by rewrite <- app_assoc.
  - done.
Qed.

Lemma inv_set_ctx_done tg s evs :
  Inv tg s evs -> Inv tg (set_ctx_done s) (evs ++ []).
Proof.
  intros [Hcr Htm Hlen Hw Hcap Hs Hwg Hcol Hwt]. rewrite app_nil_r.
  split; simpl; try done.
  unfold collector_ok in *. simpl.
  destruct (collector s) as [[]|]; unfold ctx_done; simpl; naive_solver.
Qed.

Lemma inv_step_waiter tg s evs s' e :
  Inv tg s evs -> step_waiter s = Some (s', e) -> Inv tg s' (evs ++ e).
Proof.
  intros HI Hstep. pose proof HI as [Hcr Htm Hlen Hw Hcap Hs Hwg Hcol Hwt].
  unfold step_waiter in Hstep. unfold waiter_ok in Hwt.
  destruct (waiter s) as [[]|] eqn:Hwtr; simpl in Hstep; [| |done|done].
  - destruct (wg s =? 0)%nat eqn:Hz; [|done]. injection Hstep as <- <-.
    apply Nat.eqb_eq in Hz. rewrite app_nil_r.
    split; simpl; try done.
    unfold waiter_ok; simpl. split; [done|].
    apply forallb_exited_running. by rewrite <- Hwg.
  - destruct Hwt as [Hcl Hall]. unfold chan_close in Hstep. rewrite Hcl in Hstep.
    injection Hstep as <- <-.
    assert (Hcol' : collector_ok tg (set_waiter WtExit
              (set_done {| buf := buf (done s); cap := cap (done s); closed := true |} s))
              (evs ++ [EvCloseDone])).
    { eapply (collector_ok_frame tg s); try done. naive_solver. }
    split; try done; simpl.
    all: try (intros j w Hj; rewrite hist_app; simpl; rewrite app_nil_r; by apply Hw).
    all: try (rewrite sends_app; simpl; by rewrite app_nil_r).
Qed.

Lemma inv_other_step tg s evs s' e :
  Inv tg s evs ->
  workers s' = workers s -> wg s' = wg s -> crashed s' = false ->
  has_timer (rctx s') = has_timer (rctx s) -> cap (retChan s') = cap (retChan s) ->
  (forall j, hist j e = []) -> sends e = [] ->
  collector_ok tg s' (evs ++ e) -> waiter_ok s' ->
  Inv tg s' (evs ++ e).
Proof.
  intros [Hcr Htm Hlen Hw Hcap Hs Hwg Hcol Hwt] Hws Hwg' Hcr' Htm' Hcap' Hh Hse Hcol' Hwt'.
  split; try done.
  - by rewrite Htm'.
  - by rewrite Hws.
  - intros j w Hj. rewrite Hws in Hj. rewrite hist_app, Hh, app_nil_r. by apply Hw.
  - by rewrite Hcap'.
  - by rewrite sends_app, Hse, app_nil_r.
  - by rewrite Hwg', Hws.
Qed.

Lemma inv_step_collector tg s evs s' e :
  Inv tg s evs -> step_collector tg s = Some (s', e) -> Inv tg s' (evs ++ e).
Proof.
  intros HI Hstep. pose proof HI as [Hcr Htm Hlen Hw Hcap Hs Hwg Hcol Hwt].
  unfold step_collector in Hstep. unfold collector_ok in Hcol.
  destruct (collector s) as [[| | |results|results| | |]|] eqn:Hc; simpl in Hstep; [..|done|done].
  - (* CStart *)
    destruct Hcol as (Hcl & Hbuf & Hch & Hce).
    destruct (isTimeout tg) eqn:Hto; simpl in Hstep; injection Hstep as <- <-;
      (eapply inv_other_step; [done..| |done]);
      unfold collector_ok, ctx_done; simpl; rewrite sent_results_app, ch_events_app; simpl;
      rewrite ?app_nil_r; rewrite ?Hto; naive_solver.
  - (* CSelect *)
    destruct Hcol as (Hcl & Hbuf & Hch & Hce & Hnt).
    destruct (ctx_done s || closed (done s)) eqn:Hready; [|done].
    injection Hstep as <- <-.
    eapply inv_other_step; [done..| |done].
    unfold collector_ok; simpl. rewrite app_nil_r. split_and!; [done..|].
    apply orb_true_iff in Hready as [Hd|Hd]; [by left|right].
    unfold waiter_ok in Hwt. rewrite Hd in Hwt.
    destruct (waiter s) as [[]|]; naive_solver.
  - (* CCloseRet *)
    destruct Hcol as (Hcl & Hbuf & Hch & Hce & Hor).
    unfold chan_close in Hstep. rewrite Hcl in Hstep. injection Hstep as <- <-.
    eapply inv_other_step; [done..| |done].
    unfold collector_ok, expected_results; simpl.
    rewrite sent_results_app, ch_events_app; simpl. rewrite ?app_nil_r.
    destruct (collectResult tg) eqn:Hcr'; simpl; done.
  - (* CDrain *)
    destruct Hcol as (Hcl & Hcr' & Hbuf & Hch & Hce & Hor).
    destruct (buf (retChan s)) as [|result rest] eqn:Hb.
    + rewrite Hcl in Hstep. injection Hstep as <- <-.
      eapply inv_other_step; [done..| |done].
      unfold collector_ok, expected_results; simpl. rewrite app_nil_r in *.
      rewrite Hcr'. done.
    + injection Hstep as <- <-.
      eapply inv_other_step; [done..| |done].
      unfold collector_ok; simpl. rewrite app_nil_r, <- app_assoc. done.
  - (* CSend *)
    destruct Hcol as (Hcl & Hres & Hch & Hce & Hor).
    rewrite Hch in Hstep. simpl in Hstep. injection Hstep as <- <-.
    eapply inv_other_step; [done..| |done].
    unfold collector_ok; simpl.
    rewrite ch_events_app, Hce, expected_results_same by done. simpl.
    rewrite Hres. done.
  - (* CDeferCancel *)
    destruct Hcol as (Hcl & Hch & Hce & Hor).
    injection Hstep as <- <-.
    eapply inv_other_step; [done..| |done].
    unfold collector_ok; simpl.
    rewrite ch_events_app, Hce, expected_results_same by done. done.
  - (* CDeferClose *)
    destruct Hcol as (Hcl & Hch & Hce & Hor).
    rewrite Hch in Hstep. simpl in Hstep. injection Hstep as <- <-.
    eapply inv_other_step; [done..| |done].
    unfold collector_ok; simpl.
    rewrite ch_events_app, Hce, expected_results_same by done. done.
Qed.

Lemma inv_step tg s evs a s' e :
  Inv tg s evs -> step tg s a = Some (s', e) -> Inv tg s' (evs ++ e).
Proof.
  intros HI Hstep. unfold step in Hstep.
  destruct (crashed s); [done|].
  destruct a as [i c| | | |].
  - by eapply inv_step_worker.
  - by eapply inv_step_waiter.
  - by eapply inv_step_collector.
  - unfold step_deadline in Hstep. destruct (has_timer (rctx s)); [|done].
    injection Hstep as <- <-. by apply inv_set_ctx_done.
  - unfold step_parent in Hstep. destruct (has_parent (rctx s)); [|done].
    injection Hstep as <- <-. by apply inv_set_ctx_done.
Qed.

(** The invariant holds after every schedule of a run that passed [check]. *)
Lemma inv_execution tg sched s evs :
  check tg = None -> execution tg sched = Some (s, evs) -> Inv tg s evs.
Proof.
  intros Hc Hex. unfold execution in Hex.
  destruct (exec tg (ExecChan tg).1 sched) as [[s1 evs1]|] eqn:He; [|done].
  injection Hex as <- <-.
  assert (Hnil : (ExecChan tg).2 = []) by (unfold ExecChan; by rewrite Hc).
  rewrite Hnil. simpl.
  apply (exec_invariant tg (Inv tg) (inv_step tg) sched _ [] _ _ (inv_init tg Hc) He).
Qed.

(** ** Runs that fail validation *)

Lemma failed_no_step tg err a :
  check tg = Some err -> step tg (ExecChan tg).1 a = None.
Proof.
  intros Hc. unfold ExecChan. rewrite Hc. by destruct a.
Qed.

Lemma failed_execution tg err sched s evs :
  check tg = Some err -> execution tg sched = Some (s, evs) ->
  sched = [] /\ s = (ExecChan tg).1 /\ evs = [EvDeliver (mkGroupResult [] (Some err))].
Proof.
  intros Hc Hex. unfold execution in Hex.
  destruct sched as [|a sched]; simpl in Hex.
  - injection Hex as <- <-. unfold ExecChan. by rewrite Hc.
  - by rewrite (failed_no_step tg err a Hc) in Hex.
Qed.

(** ** The collector never waits for a worker *)

Definition rank (s : State) : nat :=
  match collector s with
  | Some CStart => 8 + length (buf (retChan s))
  | Some CSelect =>
      6 + length (buf (retChan s)) + (if ctx_done s || closed (done s) then 0 else 1)
  | Some CCloseRet => 5 + length (buf (retChan s))
  | Some (CDrain _) => 4 + length (buf (retChan s))
  | Some (CSend _) => 3
  | Some CDeferCancel => 2
  | Some CDeferClose => 1
  | Some CExit | None => 0
  end.

Lemma collector_progress tg s evs :
  Inv tg s evs -> collector s <> Some CExit ->
  exists a s1 e, is_worker_action a = false /\ step tg s a = Some (s1, e) /\
                 (rank s1 < rank s)%nat.
Proof.
  intros HI Hne. pose proof HI as [Hcr Htm Hlen Hw Hcap Hs Hwg Hcol Hwt].
  unfold collector_ok in Hcol. unfold step, rank. rewrite Hcr.
  destruct (collector s) as [[| | |results|results| | |]|] eqn:Hc; [..|done|done].
  - exists ACollector. unfold step_collector. rewrite Hc. simpl.
    destruct (isTimeout tg); simpl; eexists _, _; (split_and!; [done|done|]);
      simpl; unfold ctx_done; simpl; try destruct (_ || _); lia.
  - destruct Hcol as (Hcl & Hbuf & Hch & Hce & Hnt).
    destruct (ctx_done s || closed (done s)) eqn:Hready.
    + exists ACollector. unfold step_collector. rewrite Hc. simpl. rewrite Hready.
      eexists _, _. split_and!; [done|done|]. simpl. lia.
    + exists ADeadline. unfold step_deadline. rewrite Htm.
      destruct (isTimeout tg) eqn:Hto.
      * eexists _, _. split_and!; [done|done|]. simpl. rewrite Hc.
        unfold ctx_done. simpl. lia.
      * specialize (Hnt eq_refl). rewrite Hnt in Hready. done.
  - destruct Hcol as (Hcl & _). exists ACollector. unfold step_collector, chan_close.
    rewrite Hc. simpl. rewrite Hcl. eexists _, _. split_and!; [done|done|].
    simpl. destruct (collectResult tg); simpl; lia.
  - destruct Hcol as (Hcl & _). exists ACollector. unfold step_collector.
    rewrite Hc. simpl. destruct (buf (retChan s)) as [|r rest] eqn:Hb.
    + rewrite Hcl. eexists _, _. split_and!; [done|done|]. simpl. lia.
    + eexists _, _. split_and!; [done|done|]. simpl. rewrite ?Hb. simpl. lia.
  - destruct Hcol as (_ & _ & Hch & _). exists ACollector. unfold step_collector.
    rewrite Hc. simpl. rewrite Hch. simpl. eexists _, _. split_and!; [done|done|].
    simpl. lia.
  - exists ACollector. unfold step_collector. rewrite Hc. simpl.
    eexists _, _. split_and!; [done|done|]. simpl. lia.
  - destruct Hcol as (_ & Hch & _). exists ACollector. unfold step_collector.
    rewrite Hc. simpl. rewrite Hch. simpl. eexists _, _. split_and!; [done|done|].
    simpl. lia.
Qed.

Definition no_worker_action (sched : list Action) : Prop :=
  Forall (fun a => is_worker_action a = false) sched.

Lemma collector_exit_dec (s : State) :
  collector s = Some CExit \/ collector s <> Some CExit.
Proof. destruct (collector s) as [[]|]; (by left) || (by right). Qed.

Lemma collector_finishes_rank tg n :
  forall s evs, (rank s <= n)%nat -> Inv tg s evs ->
  exists sched s' evs',
    no_worker_action sched /\ exec tg s sched = Some (s', evs') /\
    collector s' = Some CExit.
Proof.
  induction n as [|n IH]; intros s evs Hr HI.
  - destruct (collector_exit_dec s) as [He|Hne].
    + exists [], s, []. split_and!; [constructor|done|done].
    + destruct (collector_progress tg s evs HI Hne) as (a & s1 & e & _ & _ & Hlt). lia.
  - destruct (collector_exit_dec s) as [He|Hne].
    + exists [], s, []. split_and!; [constructor|done|done].
    + destruct (collector_progress tg s evs HI Hne) as (a & s1 & e & Ha & Hstep & Hlt).
      destruct (IH s1 (evs ++ e)) as (sched & s' & evs' & Hnw & Hex & Hfin).
      * lia.
      * by eapply inv_step.
      * exists (a :: sched), s', (e ++ evs'). split_and!; [by constructor| |done].
        by eapply exec_cons.
Qed.

(** From every state of a run that passed [check], the timer and the
    collector alone bring the run to its end. *)
Lemma collector_finishes tg s evs :
  Inv tg s evs ->
  exists sched s' evs',
    no_worker_action sched /\ exec tg s sched = Some (s', evs') /\
    collector s' = Some CExit.
Proof. intros HI. by eapply (collector_finishes_rank tg (rank s)). Qed.

(** ** What is delivered *)

Lemma delivered_ch_events evs : delivered evs = delivered (ch_events evs).
Proof.
  unfold delivered, ch_events. induction evs as [|ev evs IH]; [done|].
  destruct ev;
    first [rewrite filter_cons_True by done | rewrite filter_cons_False by (by intros [])];
    simpl; first [exact IH | f_equal; exact IH].
Qed.

Lemma close_ch_events evs : EvCloseCh ∈ evs <-> EvCloseCh ∈ ch_events evs.
Proof.
  unfold ch_events. rewrite list_elem_of_filter. naive_solver.
Qed.

(** In a run that passed [check], nothing or exactly the expected outcome
    has been delivered, and [ch] is closed only after the delivery. *)
Lemma valid_ch_events tg sched s evs :
  check tg = None -> execution tg sched = Some (s, evs) ->
  let gr := mkGroupResult (expected_results tg evs) None in
  (ch_events evs = [] /\ buf (ch s) = [] /\ closed (ch s) = false) \/
  (ch_events evs = [EvDeliver gr] /\ buf (ch s) = [gr] /\ closed (ch s) = false) \/
  (ch_events evs = [EvDeliver gr; EvCloseCh] /\ buf (ch s) = [gr] /\ closed (ch s) = true /\
   collector s = Some CExit).
Proof.
  intros Hc Hex. pose proof (inv_execution tg sched s evs Hc Hex) as HI.
  pose proof (inv_collector _ _ _ HI) as Hcol. unfold collector_ok in Hcol. simpl.
  destruct (collector s) as [[]|]; try done;
    first [ left; destruct Hcol as (_ & _ & -> & -> & _); done
          | left; destruct Hcol as (_ & _ & -> & ->); done
          | left; destruct Hcol as (_ & _ & _ & -> & -> & _); done
          | right; left; destruct Hcol as (_ & -> & -> & _); done
          | right; right; destruct Hcol as (_ & -> & -> & _); done ].
Qed.

Lemma valid_delivered tg sched s evs gr :
  check tg = None -> execution tg sched = Some (s, evs) ->
  gr ∈ delivered evs ->
  delivered evs = [gr] /\ gr = mkGroupResult (expected_results tg evs) None.
Proof.
  intros Hc Hex Hin. rewrite delivered_ch_events in *.
  destruct (valid_ch_events tg sched s evs Hc Hex) as [(He & _)|[(He & _)|(He & _)]];
    rewrite He in *; simpl in *.
  - by apply elem_of_nil in Hin.
  - apply list_elem_of_singleton in Hin as ->. done.
  - apply list_elem_of_singleton in Hin as ->. done.
Qed.

Lemma execution_app tg sched sched' s evs s' evs' :
  execution tg sched = Some (s, evs) -> exec tg s sched' = Some (s', evs') ->
  execution tg (sched ++ sched') = Some (s', evs ++ evs').
Proof.
  unfold execution. intros H1 H2. rewrite exec_app.
  destruct (exec tg (ExecChan tg).1 sched) as [[s1 evs1]|]; [|done].
  injection H1 as -> <-. rewrite H2. by rewrite app_assoc.
Qed.

(** Every run that passed [check] can be continued, by the timer and the
    collector alone, to the point where the outcome is delivered and [ch]
    is closed. *)
Lemma valid_run_completes tg sched s evs :
  check tg = None -> execution tg sched = Some (s, evs) ->
  exists sched' s' evs',
    no_worker_action sched' /\
    execution tg (sched ++ sched') = Some (s', evs ++ evs') /\
    collector s' = Some CExit /\
    ch_events (evs ++ evs') =
      [EvDeliver (mkGroupResult (expected_results tg (evs ++ evs')) None); EvCloseCh].
Proof.
  intros Hc Hex. pose proof (inv_execution tg sched s evs Hc Hex) as HI.
  destruct (collector_finishes tg s evs HI) as (sched' & s' & evs' & Hnw & Hex' & Hfin).
  exists sched', s', evs'. split_and!; [done|by eapply execution_app|done|].
  pose proof (execution_app _ _ _ _ _ _ _ Hex Hex') as Hfull.
  destruct (valid_ch_events tg _ _ _ Hc Hfull) as [(He & _)|[(He & _)|(He & _)]];
    pose proof (inv_collector _ _ _ (inv_execution _ _ _ _ Hc Hfull)) as Hcol;
    unfold collector_ok in Hcol; rewrite Hfin in Hcol; destruct Hcol as (_ & _ & Hce & _);
    done.
Qed.

(** The timer, the waiter, the parent context and the collector never touch
    a worker. *)
Lemma step_no_worker tg s a s' e :
  is_worker_action a = false -> step tg s a = Some (s', e) ->
  workers s' = workers s /\ forall j, hist j e = [].
Proof.
  intros Ha Hstep. unfold step in Hstep. destruct (crashed s); [done|].
  destruct a as [i c| | | |]; [done|..].
  - unfold step_waiter in Hstep. destruct (waiter s) as [[]|]; simpl in Hstep; try done.
    + destruct (wg s =? 0)%nat; [|done]. by injection Hstep as <- <-.
    + destruct (chan_close (done s)); by injection Hstep as <- <-.
  - unfold step_collector in Hstep.
    destruct (collector s) as [[]|]; simpl in Hstep; try done.
    + destruct (negb (isTimeout tg)); by injection Hstep as <- <-.
    + destruct (ctx_done s || closed (done s)); [|done]. by injection Hstep as <- <-.
    + destruct (chan_close (retChan s)); by injection Hstep as <- <-.
    + destruct (buf (retChan s)); [destruct (closed (retChan s)); [|done]|];
        by injection Hstep as <- <-.
    + destruct (chan_send (ch s) _); [| |done]; by injection Hstep as <- <-.
    + by injection Hstep as <- <-.
    + destruct (chan_close (ch s)); by injection Hstep as <- <-.
  - unfold step_deadline in Hstep. destruct (has_timer (rctx s)); [|done].
    by injection Hstep as <- <-.
  - unfold step_parent in Hstep. destruct (has_parent (rctx s)); [|done].
    by injection Hstep as <- <-.
Qed.

Lemma exec_no_worker tg sched s s' evs :
  no_worker_action sched -> exec tg s sched = Some (s', evs) ->
  workers s' = workers s /\ forall j, hist j evs = [].
Proof.
  intros Hnw. revert s s' evs. induction Hnw as [|a sched Ha _ IH]; intros s s' evs Hex.
  - simpl in Hex. by injection Hex as <- <-.
  - simpl in Hex. destruct (step tg s a) as [[s1 e1]|] eqn:Hs; [|done].
    destruct (exec tg s1 sched) as [[s2 e2]|] eqn:He; [|done].
    injection Hex as <- <-.
    destruct (step_no_worker _ _ _ _ _ Ha Hs) as [Hw1 Hh1].
    destruct (IH _ _ _ He) as [Hw2 Hh2].
    split; [congruence|]. intros j. by rewrite hist_app, Hh1, Hh2.
Qed.

(** ** C1 *)

(** C1 (code defect): when [check] fails, [ExecChan] sends the outcome into
    [ch] and returns without closing it (lines 223-226); no goroutine exists
    that could close it later, so in every execution of such a group the one
    outcome is delivered and [ch] stays open for ever.  The claim asks for the
    channel to be closed after the single send, as the other path does with
    [defer close(ch)]. *)
Theorem C1_failed_validation_leaves_ch_open tg err sched s evs :
  check tg = Some err ->
  execution tg sched = Some (s, evs) ->
  ch_events evs = [EvDeliver (mkGroupResult [] (Some err))] /\
  buf (ch s) = [mkGroupResult [] (Some err)] /\
  closed (ch s) = false /\
  forall a, step tg s a = None.
Proof.
  intros Hc Hex.
  destruct (failed_execution tg err sched s evs Hc Hex) as (-> & -> & ->).
  split_and!; [done| | |].
  - unfold ExecChan. by rewrite Hc.
  - unfold ExecChan. by rewrite Hc.
  - intros a. by apply (failed_no_step tg err).
Qed.

Lemma C1_failed_validation_leaves_ch_open_witness :
  let tg := NewTaskGroup "g" [] in
  check tg = Some "no tasks to execute" /\
  execution tg [] = Some ((ExecChan tg).1, (ExecChan tg).2) /\
  closed (ch (ExecChan tg).1) = false.
Proof.
  simpl. split_and!; [reflexivity|reflexivity|].
  apply (C1_failed_validation_leaves_ch_open (NewTaskGroup "g" []) "no tasks to execute"
           [] _ _ eq_refl eq_refl).
Defined.

(** ** C2 *)

Lemma check_Some tg :
  check tg <> None <->
  tasks tg = [] \/ (collectResult tg = true /\ ~ (0 < timeout tg)%Z).
Proof.
  unfold check, isTimeout. destruct (tasks tg) as [|t ts]; simpl.
  { split; [by left|done]. }
  destruct (collectResult tg); simpl.
  - destruct (Z.ltb_spec 0 (timeout tg)); simpl.
    + split; [done|]. intros [?|[_ ?]]; [done|lia].
    + split; [|done]. intros _. right. split; [done|lia].
  - split; [done|]. by intros [?|[? _]].
Qed.

Lemma elem_of_hist j ev evs : ev ∈ hist j evs <-> ev ∈ evs /\ concerns j ev = true.
Proof.
  unfold hist. rewrite list_elem_of_filter. split; intros [H1 H2]; split; try done.
  - by apply Is_true_eq_true.
  - by apply Is_true_eq_left.
Qed.

Lemma elem_of_sends i r evs : (i, r) ∈ sends evs <-> EvSend i r ∈ evs.
Proof.
  unfold sends. rewrite list_elem_of_omap. split.
  - intros (ev & Hin & Hev). destruct ev; try done. by injection Hev as -> ->.
  - intros Hin. by exists (EvSend i r).
Qed.

Lemma before_defer_send t j r0 h0 r :
  before_defer t j r0 h0 -> EvSend j r ∈ h0 ->
  Execute t = Returns (Value r) (Error r).
Proof.
  unfold before_defer. intros Hb Hin.
  destruct r0 as [[p st]|].
  - destruct Hb as [[_ ->]|(v & e & _ & [(_ & _ & ->)|(_ & ->)])].
    + by apply elem_of_nil in Hin.
    + apply list_elem_of_singleton in Hin. done.
    + apply list_elem_of_singleton in Hin. done.
  - destruct Hb as (v & e & Hexe & [->|[(_ & ->)|(_ & ->)]]).
    + apply list_elem_of_singleton in Hin. injection Hin as ->. done.
    + by apply elem_of_nil in Hin.
    + apply list_elem_of_singleton in Hin. done.
Qed.

Lemma send_not_in_log_events tg j r0 r : EvSend j r ∉ log_events tg j r0.
Proof.
  destruct r0 as [[p st]|]; simpl.
  - intros Hin. by apply list_elem_of_singleton in Hin.
  - apply not_elem_of_nil.
Qed.

(** Whatever was sent into [retChan] by worker [i] is what task [i] returned. *)
Lemma sent_is_returned tg s evs i r :
  Inv tg s evs -> (i, r) ∈ sends evs ->
  exists t, tasks tg !! i = Some t /\ Execute t = Returns (Value r) (Error r).
Proof.
  intros HI Hin.
  assert (Hlt : (i < length (workers s))%nat).
  { rewrite (inv_length _ _ _ HI). apply (inv_sends _ _ _ HI).
    apply list_elem_of_fmap. by exists (i, r). }
  destruct (lookup_lt_is_Some_2 _ _ Hlt) as [w Hw].
  destruct (inv_worker _ _ _ HI i w Hw) as (Ht & _ & Hroute).
  exists (w_task w). split; [done|].
  apply elem_of_sends in Hin.
  assert (Hh : EvSend i r ∈ hist i evs).
  { apply elem_of_hist. split; [done|]. simpl. by rewrite bool_decide_eq_true_2. }
  unfold route_ok in Hroute.
  destruct (w_pc w).
  - rewrite Hroute in Hh. by apply elem_of_nil in Hh.
  - destruct Hroute as [_ Hn]. rewrite Hn in Hh. by apply elem_of_nil in Hh.
  - destruct Hroute as [_ Hn]. rewrite Hn in Hh. by apply elem_of_nil in Hh.
  - destruct Hroute as [_ Hn]. rewrite Hn in Hh. by apply elem_of_nil in Hh.
  - destruct Hroute as (v & e & _ & _ & Hn). rewrite Hn in Hh.
    by apply list_elem_of_singleton in Hh.
  - by eapply before_defer_send.
  - destruct Hroute as (r0 & h0 & Hb & Hn). rewrite Hn in Hh.
    apply elem_of_app in Hh as [Hh|Hh]; [by eapply before_defer_send|].
    by apply send_not_in_log_events in Hh.
  - destruct Hroute as (r0 & h0 & Hb & Hn). rewrite Hn in Hh.
    apply elem_of_app in Hh as [Hh|Hh]; [by eapply before_defer_send|].
    apply elem_of_app in Hh as [Hh|Hh]; [by apply send_not_in_log_events in Hh|].
    by apply list_elem_of_singleton in Hh.
Qed.

Lemma expected_results_returned tg s evs r :
  Inv tg s evs -> r ∈ expected_results tg evs ->
  exists i t, (i, r) ∈ sends evs /\ tasks tg !! i = Some t /\
              Execute t = Returns (Value r) (Error r).
Proof.
  intros HI Hin. unfold expected_results, sent_results in Hin.
  destruct (collectResult tg); [|by apply elem_of_nil in Hin].
  apply list_elem_of_fmap in Hin as ([i r'] & -> & Hin). simpl.
  destruct (sent_is_returned tg s evs i r' HI Hin) as (t & Ht & Hexe).
  by exists i, t.
Qed.

(** C2: an execution delivers an outcome, and the outcome's top-level error
    is set exactly when [check] fails, that is when the task list is empty or
    collection is enabled without a positive timeout.  In that case the
    results are empty and no worker exists; otherwise the error is nil and
    every collected Result is the (value, error) pair some task's Execute
    returned, so task errors travel only inside Results. *)
Theorem C2_top_level_error_iff_check_fails tg sched s evs :
  execution tg sched = Some (s, evs) ->
  (check tg <> None <->
     tasks tg = [] \/ (collectResult tg = true /\ ~ (0 < timeout tg)%Z)) /\
  (exists sched' s' evs' gr,
     execution tg (sched ++ sched') = Some (s', evs') /\ gr ∈ delivered evs') /\
  (forall gr, gr ∈ delivered evs ->
     (GroupError gr <> None <-> check tg <> None) /\
     (check tg <> None ->
        Results gr = [] /\ workers s = [] /\ forall i c, step tg s (AWorker i c) = None) /\
     (check tg = None ->
        GroupError gr = None /\
        forall r, r ∈ Results gr ->
          exists i t, (i, r) ∈ sends evs /\ tasks tg !! i = Some t /\
                      Execute t = Returns (Value r) (Error r))).
Proof.
  intros Hex. split; [apply check_Some|].
  destruct (check tg) as [err|] eqn:Hc.
  - destruct (failed_execution tg err sched s evs Hc Hex) as (-> & -> & ->).
    split.
    + exists [], (ExecChan tg).1, [EvDeliver (mkGroupResult [] (Some err))],
             (mkGroupResult [] (Some err)).
      split; [done|]. simpl. apply list_elem_of_singleton. done.
    + intros gr Hin. simpl in Hin. apply list_elem_of_singleton in Hin as ->. simpl.
      split_and!; [done| |done].
      intros _. split_and!; [done| |].
      * unfold ExecChan. by rewrite Hc.
      * intros i c. by apply (failed_no_step tg err).
  - split.
    + destruct (valid_run_completes tg sched s evs Hc Hex)
        as (sched' & s' & evs' & _ & Hex' & _ & Hce).
      eexists sched', s', (evs ++ evs'), _. split; [done|].
      rewrite delivered_ch_events, Hce. simpl. apply list_elem_of_here.
    + intros gr Hin.
      destruct (valid_delivered tg sched s evs gr Hc Hex Hin) as [_ ->]. simpl.
      split_and!; [naive_solver|done|].
      intros _. split; [done|]. intros r Hr.
      eapply expected_results_returned; [|done]. by eapply inv_execution.
Qed.

Lemma C2_top_level_error_iff_check_fails_witness :
  let tg := AddTask (mkTasker "a" (Returns "v" (Some "task failed")) None)
              (NewTaskGroup "g" [WithDuration 1000; WithCollectRet]) in
  let sched := [AWorker 0 true; AWorker 0 true; AWorker 0 false;
                ACollector; ADeadline; ACollector; ACollector; ACollector; ACollector;
                ACollector] in
  exists s evs,
    execution tg sched = Some (s, evs) /\
    delivered evs = [mkGroupResult [mkResult "v" (Some "task failed")] None] /\
    (check tg <> None <->
       tasks tg = [] \/ (collectResult tg = true /\ ~ (0 < timeout tg)%Z)).
Proof.
  intros tg sched.
  destruct (execution tg sched) as [[s evs]|] eqn:He; [|by vm_compute in He].
  exists s, evs. split; [done|].
  destruct (C2_top_level_error_iff_check_fails tg sched s evs He) as (Hiff & _).
  split; [|exact Hiff].
  vm_compute in He. injection He as <- <-. reflexivity.
Defined.

(** ** C7 *)

(** C7: when collection is disabled, every outcome an execution delivers
    has an empty result sequence, whatever the tasks do, and no task can hold
    the run back: from every reachable state the run reaches its delivered
    outcome through steps of the timer and the collector only, without any
    step of a worker. *)
Theorem C7_collection_disabled_empty_results tg sched s evs :
  collectResult tg = false ->
  execution tg sched = Some (s, evs) ->
  (forall gr, gr ∈ delivered evs -> Results gr = []) /\
  (exists sched' s' evs',
     no_worker_action sched' /\
     execution tg (sched ++ sched') = Some (s', evs') /\
     exists gr, delivered evs' = [gr] /\ Results gr = []).
Proof.
  intros Hcr Hex. destruct (check tg) as [err|] eqn:Hc.
  - destruct (failed_execution tg err sched s evs Hc Hex) as (-> & -> & ->). split.
    + intros gr Hin. simpl in Hin. by apply list_elem_of_singleton in Hin as ->.
    + exists [], (ExecChan tg).1, [EvDeliver (mkGroupResult [] (Some err))].
      split_and!; [constructor|done|]. by eexists.
  - split.
    + intros gr Hin. destruct (valid_delivered tg sched s evs gr Hc Hex Hin) as [_ ->].
      simpl. unfold expected_results. by rewrite Hcr.
    + destruct (valid_run_completes tg sched s evs Hc Hex)
        as (sched' & s' & evs' & Hnw & Hex' & _ & Hce).
      exists sched', s', (evs ++ evs'). split_and!; [done|done|].
      eexists. rewrite delivered_ch_events, Hce. simpl. split; [done|].
      simpl. unfold expected_results. by rewrite Hcr.
Qed.

Lemma C7_collection_disabled_empty_results_witness :
  let tg := AddTasks [mkTasker "fast" (Returns "v" None) None;
                      mkTasker "stuck" Hangs None;
                      mkTasker "bad" (Panics "boom" "stack") None]
              (NewTaskGroup "g" [WithDuration 1000]) in
  let sched := [AWorker 0 true; AWorker 0 true; AWorker 0 false; AWorker 2 true] in
  exists s evs,
    execution tg sched = Some (s, evs) /\
    exists sched' s' evs',
      no_worker_action sched' /\
      execution tg (sched ++ sched') = Some (s', evs') /\
      exists gr, delivered evs' = [gr] /\ Results gr = [].
Proof.
  intros tg sched.
  destruct (execution tg sched) as [[s evs]|] eqn:He; [|by vm_compute in He].
  exists s, evs. split; [done|].
  apply (C7_collection_disabled_empty_results tg sched s evs eq_refl He).
Defined.

(** ** C6 *)

(** C6 fails as stated: a group without a deadline and without tasks does
    not return a nil error. *)
Lemma C6_counterexample :
  let tg := NewTaskGroup "g" [] in
  isTimeout tg = false /\
  GroupExecute tg [] = Some ([], Some "no tasks to execute").
Proof. split; reflexivity. Qed.

Lemma no_timeout_no_collect tg :
  isTimeout tg = false -> check tg = None -> collectResult tg = false.
Proof.
  intros Hto Hc. apply check_None in Hc as [_ Hc].
  destruct (collectResult tg); [|done]. rewrite Hc in Hto; done.
Qed.

(** C6, amended: for every group without a deadline that passes [check]
    (at least one task, collection disabled), all workers are started when
    ExecChan returns and the collector's first step is [cancel()]; every
    outcome delivered has empty results and a nil error; and the outcome is
    delivered and [ch] closed by the collector alone, with every worker still
    where it started, so no task is waited for. *)
Theorem C6_no_deadline_returns_without_waiting tg :
  isTimeout tg = false ->
  check tg = None ->
  workers (ExecChan tg).1 = run (tasks tg) /\
  length (workers (ExecChan tg).1) = length (tasks tg) /\
  (exists s1, step tg (ExecChan tg).1 ACollector = Some (s1, [EvCancel]) /\
              ctx_done s1 = true /\ workers s1 = run (tasks tg)) /\
  (forall sched s evs gr,
     execution tg sched = Some (s, evs) -> gr ∈ delivered evs ->
     gr = mkGroupResult [] None) /\
  (exists sched s evs,
     no_worker_action sched /\
     execution tg sched = Some (s, evs) /\
     delivered evs = [mkGroupResult [] None] /\
     closed (ch s) = true /\
     workers s = run (tasks tg)).
Proof.
  intros Hto Hc. pose proof (no_timeout_no_collect tg Hto Hc) as Hcr.
  assert (Hs0 : (ExecChan tg).1 =
                mkState (make_chan 1) (make_chan (length (tasks tg))) (make_chan 0)
                  (takeContext tg) (length (tasks tg)) (run (tasks tg))
                  (Some WtWait) (Some CStart) false).
  { unfold ExecChan. by rewrite Hc. }
  assert (He0 : (ExecChan tg).2 = []) by (unfold ExecChan; by rewrite Hc).
  split_and!.
  - by rewrite Hs0.
  - rewrite Hs0. simpl. unfold run. apply length_imap.
  - rewrite Hs0. unfold step, step_collector. simpl. rewrite Hto. simpl.
    eexists. split; [done|]. done.
  - intros sched s evs gr Hex Hin.
    destruct (valid_delivered tg sched s evs gr Hc Hex Hin) as [_ ->].
    unfold expected_results. by rewrite Hcr.
  - assert (Hex0 : execution tg [] = Some ((ExecChan tg).1, [])).
    { unfold execution. simpl. by rewrite He0. }
    destruct (valid_run_completes tg [] _ _ Hc Hex0)
      as (sched' & s' & evs' & Hnw & Hex' & Hfin & Hce).
    simpl in Hex', Hce.
    exists sched', s', evs'. split_and!; [done|done| | |].
    + rewrite delivered_ch_events, Hce. simpl. unfold expected_results. by rewrite Hcr.
    + destruct (valid_ch_events tg _ _ _ Hc Hex') as [(He & _)|[(He & _)|(_ & _ & Hcl & _)]];
        [by rewrite Hce in He|by rewrite Hce in He|done].
    + unfold execution in Hex'.
      destruct (exec tg (ExecChan tg).1 sched') as [[s2 evs2]|] eqn:He2; [|done].
      injection Hex' as -> _.
      destruct (exec_no_worker _ _ _ _ _ Hnw He2) as [Hw _]. rewrite Hw. by rewrite Hs0.
Qed.

Lemma C6_no_deadline_returns_without_waiting_witness :
  let tg := AddTasks (replicate 5 (mkTasker "t" (Returns "v" None) None))
              (NewTaskGroup "g" []) in
  isTimeout tg = false /\ check tg = None /\
  length (workers (ExecChan tg).1) = length (tasks tg).
Proof.
  intros tg. split; [reflexivity|]. split; [reflexivity|].
  apply (C6_no_deadline_returns_without_waiting tg eq_refl eq_refl).
Defined.

(** ** C9 *)

(** C9: [Reset] clears the task list (and the context), whatever was added
    or executed before, so [check] then fails with the empty-task-set error:
    the next execution without new tasks delivers exactly that error with no
    results and starts no worker. *)
Theorem C9_reset_then_execute_fails tg sched s evs :
  execution (Reset tg) sched = Some (s, evs) ->
  tasks (Reset tg) = [] /\
  ctx (Reset tg) = None /\
  check (Reset tg) = Some "no tasks to execute" /\
  delivered evs = [mkGroupResult [] (Some "no tasks to execute")] /\
  workers s = [] /\
  GroupExecute (Reset tg) sched = Some ([], Some "no tasks to execute").
Proof.
  intros Hex.
  assert (Hc : check (Reset tg) = Some "no tasks to execute") by done.
  destruct (failed_execution _ _ _ _ _ Hc Hex) as (-> & -> & ->).
  split_and!; try done.
Qed.

Lemma C9_reset_then_execute_fails_witness :
  let tg := AddTask (mkTasker "a" (Returns "v" None) None)
              (NewTaskGroup "g" [WithDuration 1000; WithCollectRet]) in
  check tg = None /\
  GroupExecute (Reset tg) [] = Some ([], Some "no tasks to execute").
Proof.
  intros tg. split; [reflexivity|].
  apply (C9_reset_then_execute_fails tg [] (ExecChan (Reset tg)).1
           (ExecChan (Reset tg)).2 eq_refl).
Defined.

(** ** C8 *)

Definition t_first := mkTasker "first" (Returns "r0" None) None.
Definition t_second := mkTasker "second" (Returns "r1" None) None.

(** C8: with collection enabled, the results of a delivered outcome are the
    values sent into [retChan], in the order of the sends, each worker having
    sent at most once and each value being what that worker's task returned.
    That order is the order of completion, not of submission: a run of two
    tasks exists whose outcome lists the second task's result first. *)
Theorem C8_results_in_delivery_order tg sched s evs gr :
  collectResult tg = true ->
  execution tg sched = Some (s, evs) ->
  gr ∈ delivered evs ->
  Results gr = sent_results evs /\
  NoDup (sends evs).*1 /\
  (forall i r, (i, r) ∈ sends evs ->
     exists t, tasks tg !! i = Some t /\ Execute t = Returns (Value r) (Error r)) /\
  (exists tg2 sched2 s2 evs2,
     tasks tg2 = [t_first; t_second] /\ collectResult tg2 = true /\
     execution tg2 sched2 = Some (s2, evs2) /\
     sends evs2 = [(1%nat, mkResult "r1" None); (0%nat, mkResult "r0" None)] /\
     delivered evs2 = [mkGroupResult [mkResult "r1" None; mkResult "r0" None] None]).
Proof.
  intros Hcr Hex Hin. split_and!.
  - destruct (check tg) as [err|] eqn:Hc.
    + destruct (failed_execution tg err sched s evs Hc Hex) as (-> & -> & ->).
      simpl in Hin. by apply list_elem_of_singleton in Hin as ->.
    + destruct (valid_delivered tg sched s evs gr Hc Hex Hin) as [_ ->]. simpl.
      unfold expected_results. by rewrite Hcr.
  - destruct (check tg) as [err|] eqn:Hc.
    + destruct (failed_execution tg err sched s evs Hc Hex) as (-> & -> & ->).
      simpl. constructor.
    + apply (inv_sends _ _ _ (inv_execution tg sched s evs Hc Hex)).
  - intros i r Hs. destruct (check tg) as [err|] eqn:Hc.
    + destruct (failed_execution tg err sched s evs Hc Hex) as (-> & -> & ->).
      simpl in Hs. by apply elem_of_nil in Hs.
    + eapply sent_is_returned; [|done]. by eapply inv_execution.
  - exists (AddTasks [t_first; t_second] (NewTaskGroup "g" [WithDuration 1000; WithCollectRet])),
      [AWorker 1 true; AWorker 1 true; AWorker 1 true;
       AWorker 0 true; AWorker 0 true; AWorker 0 true;
       AWorker 0 true; AWorker 0 true; AWorker 1 true; AWorker 1 true;
       AWaiter; AWaiter;
       ACollector; ACollector; ACollector; ACollector; ACollector; ACollector;
       ACollector; ACollector; ACollector].
    eexists _, _. split_and!; [reflexivity|reflexivity|vm_compute; reflexivity|reflexivity|reflexivity].
Qed.

Lemma C8_results_in_delivery_order_witness :
  let tg := AddTasks [t_first; t_second]
              (NewTaskGroup "g" [WithDuration 1000; WithCollectRet]) in
  let sched := [AWorker 1 true; AWorker 1 true; AWorker 1 true;
                AWorker 0 true; AWorker 0 true; AWorker 0 true;
                ADeadline; ACollector; ACollector; ACollector; ACollector; ACollector;
                ACollector; ACollector] in
  exists s evs,
    execution tg sched = Some (s, evs) /\
    mkGroupResult [mkResult "r1" None; mkResult "r0" None] None ∈ delivered evs /\
    NoDup (sends evs).*1.
Proof.
  intros tg sched.
  destruct (execution tg sched) as [[s evs]|] eqn:He; [|by vm_compute in He].
  exists s, evs. split; [done|].
  assert (Hin : mkGroupResult [mkResult "r1" None; mkResult "r0" None] None ∈ delivered evs).
  { vm_compute in He. injection He as <- <-. simpl. apply list_elem_of_here. }
  split; [done|].
  apply (C8_results_in_delivery_order tg sched s evs _ eq_refl He Hin).
Defined.

(** ** C3 and C5: the two selects of a worker *)

Lemma not_all_exited (ws : list Worker) i w :
  ws !! i = Some w -> w_pc w <> WExit -> forallb exited ws = true -> False.
Proof. intros Hi Hpc Hall. by pose proof (forallb_exited_lookup _ _ _ Hall Hi). Qed.

(** A worker that reaches the inner select never finds [retChan] full, and
    finds it closed only once the deadline signal has fired. *)
Lemma race_send_ready tg s evs i w ret :
  Inv tg s evs -> workers s !! i = Some w -> w_pc w = WRace ret ->
  send_ready (retChan s) = true /\
  (closed (retChan s) = true -> ctx_done s = true) /\
  (closed (retChan s) = false -> (length (buf (retChan s)) < cap (retChan s))%nat).
Proof.
  intros HI Hi Hpc.
  assert (Hne : w_pc w <> WExit) by (by rewrite Hpc).
  pose proof (inv_collector _ _ _ HI) as Hcol.
  assert (Hopen : closed (retChan s) = false ->
                  (length (buf (retChan s)) < cap (retChan s))%nat).
  { intros Hcl.
    assert (Hbuf : buf (retChan s) = sent_results evs).
    { unfold collector_ok in Hcol. rewrite Hcl in Hcol.
      destruct (collector s) as [[]|]; try done; naive_solver. }
    rewrite Hbuf, (inv_cap _ _ _ HI). unfold sent_results. rewrite length_fmap.
    destruct (inv_sends _ _ _ HI) as [Hnd Hb].
    destruct (inv_worker _ _ _ HI i w Hi) as (_ & _ & Hroute).
    unfold route_ok in Hroute. rewrite Hpc in Hroute. destruct Hroute as [_ Hnil].
    assert (Hlen : (length (i :: (sends evs).*1) <= length (tasks tg))%nat).
    { apply NoDup_bounded_length.
      - constructor; [|done]. intros Hin. by apply sends_hist in Hin.
      - intros x Hx. apply elem_of_cons in Hx as [->|Hx]; [|by apply Hb].
        rewrite <- (inv_length _ _ _ HI). by eapply lookup_lt_Some. }
    simpl in Hlen. rewrite length_fmap in Hlen. lia. }
  split_and!; [|  |done].
  - unfold send_ready. destruct (closed (retChan s)) eqn:Hcl; [done|]. simpl.
    apply Nat.ltb_lt. by apply Hopen.
  - intros Hcl. unfold collector_ok in Hcol. rewrite Hcl in Hcol.
    destruct (collector s) as [[]|]; try done;
      try (by destruct Hcol as [? _]);
      repeat match goal with H : _ /\ _ |- _ => destruct H end; try done;
      match goal with H : _ \/ _ |- _ => destruct H as [?|Hall] end; try done;
      by destruct (not_all_exited _ _ _ Hi Hne Hall).
Qed.

(** C3 (code defect): the deadline does not win ties.  The outer select
    (lines 297-301) checks the deadline signal first and takes the timeout
    path whenever it has fired, whatever the state of [retChan].  A worker
    that passed this check just before the signal fired stands in the inner
    select (lines 303-309), which gives no priority: it never blocks, it
    sends while the signal has not fired, and once the signal has fired both
    cases are ready and the select may take the send as well as the timeout
    path.  When it takes the send while [retChan] is still open, the Result
    is in [retChan], to be collected, and the worker goes on to its deferred
    functions without calling the timeout handler.  The comment at line 298
    asks for the priority that the inner select misses. *)
Theorem C3_send_can_win_the_tie tg sched s evs i w ret c :
  check tg = None ->
  execution tg sched = Some (s, evs) ->
  workers s !! i = Some w ->
  (w_pc w = WSelect ret ->
     (ctx_done s = true ->
        step tg s (AWorker i c) = Some (set_pc i w (WTimeout ret) s, [])) /\
     (ctx_done s = false ->
        step tg s (AWorker i c) = Some (set_pc i w (WRace ret) s, []))) /\
  (w_pc w = WRace ret ->
     send_ready (retChan s) = true /\
     (exists s' e, step tg s (AWorker i c) = Some (s', e)) /\
     (ctx_done s = false ->
        exists s', step tg s (AWorker i c) = Some (s', [EvSend i ret]) /\
                   buf (retChan s') = buf (retChan s) ++ [ret]) /\
     (ctx_done s = true ->
        step tg s (AWorker i true) = Some (set_pc i w (WTimeout ret) s, []) /\
        (closed (retChan s) = false ->
           step tg s (AWorker i false) =
             Some (set_pc i w (WRecover None)
                     (set_retChan
                        (mkChan (buf (retChan s) ++ [ret]) (cap (retChan s)) false) s),
                   [EvSend i ret])))) /\
  (w_pc w = WTimeout ret ->
     exists s', step tg s (AWorker i c) =
                  Some (s', match TimeoutHandler (w_task w) with
                            | Some _ => [EvTimeoutHandler i (Value ret) (Error ret)]
                            | None => []
                            end) /\
                retChan s' = retChan s).
Proof.
  intros Hc Hex Hi. pose proof (inv_execution tg sched s evs Hc Hex) as HI.
  destruct (inv_worker _ _ _ HI i w Hi) as (_ & Hidx & _).
  unfold step, step_worker. rewrite (inv_crashed _ _ _ HI), Hi. simpl.
  split_and!; intros Hpc; rewrite Hpc.
  - split; intros ->; done.
  - destruct (race_send_ready tg s evs i w ret HI Hi Hpc) as (Hready & Hclosed & Hroom).
    rewrite Hready. split_and!.
    + done.
    + unfold send_case, chan_send.
      destruct (ctx_done s); [destruct c; [by eexists _, _|]|];
        (destruct (closed (retChan s)) eqn:Hcl; [by eexists _, _|]);
        specialize (Hroom eq_refl); apply Nat.ltb_lt in Hroom; rewrite Hroom;
        by eexists _, _.
    + intros Hnd. rewrite Hnd. unfold send_case, chan_send.
      destruct (closed (retChan s)) eqn:Hcl.
      * rewrite Hclosed in Hnd; done.
      * specialize (Hroom eq_refl). apply Nat.ltb_lt in Hroom.
        rewrite Hroom, Hidx. by eexists.
    + intros ->. split; [done|]. intros Hcl. unfold send_case, chan_send.
      rewrite Hcl. specialize (Hroom Hcl). apply Nat.ltb_lt in Hroom.
      by rewrite Hroom, Hidx.
  - unfold timeout_path. rewrite Hidx.
    destruct (TimeoutHandler (w_task w)) as [[]|]; by eexists.
Qed.

Lemma C3_send_can_win_the_tie_witness :
  let t := mkTasker "a" (Returns "v" None) (Some HReturns) in
  let tg := AddTask t (NewTaskGroup "g" [WithDuration 1000; WithCollectRet]) in
  let sched := [AWorker 0 true; AWorker 0 true; ADeadline] in
  let rest := [AWorker 0 false; AWorker 0 true; AWorker 0 true;
               ACollector; ACollector; ACollector; ACollector; ACollector;
               ACollector; ACollector; ACollector] in
  exists s evs s' evs',
    execution tg sched = Some (s, evs) /\
    workers s !! 0%nat = Some (mkWorker t 0 (WRace (mkResult "v" None))) /\
    ctx_done s = true /\ closed (retChan s) = false /\
    step tg s (AWorker 0 false) =
      Some (set_pc 0 (mkWorker t 0 (WRace (mkResult "v" None))) (WRecover None)
              (set_retChan (mkChan [mkResult "v" None] 1 false) s),
            [EvSend 0 (mkResult "v" None)]) /\
    execution tg (sched ++ rest) = Some (s', evs') /\
    delivered evs' = [mkGroupResult [mkResult "v" None] None] /\
    handler_calls evs' = [] /\
    forallb exited (workers s') = true.
Proof.
  intros t tg sched rest.
  destruct (execution tg sched) as [[s evs]|] eqn:He; [|by vm_compute in He].
  destruct (execution tg (sched ++ rest)) as [[s' evs']|] eqn:He'; [|by vm_compute in He'].
  exists s, evs, s', evs'.
  assert (Hi : workers s !! 0%nat = Some (mkWorker t 0 (WRace (mkResult "v" None)))).
  { vm_compute in He. by injection He as <- <-. }
  assert (Hd : ctx_done s = true).
  { vm_compute in He. by injection He as <- <-. }
  assert (Hcl : closed (retChan s) = false).
  { vm_compute in He. by injection He as <- <-. }
  assert (Hbuf : mkChan (buf (retChan s) ++ [mkResult "v" None]) (cap (retChan s)) false =
                 mkChan [mkResult "v" None] 1 false).
  { vm_compute in He. by injection He as <- <-. }
  destruct (C3_send_can_win_the_tie tg sched s evs 0 _ (mkResult "v" None) false
              eq_refl He Hi) as (_ & Hrace & _).
  destruct (Hrace eq_refl) as (_ & _ & _ & Hfired).
  destruct (Hfired Hd) as [_ Hsend]. specialize (Hsend Hcl). rewrite Hbuf in Hsend.
  split_and!; [done|done|done|done|done|done| | |];
    vm_compute in He'; by injection He' as <- <-.
Defined.

(** C5 (code defect): after the collector has closed [retChan] on the
    deadline, a worker already in the inner select finds both cases ready
    and may take the send; the send on the closed channel panics, the panic
    is recovered and logged as a task error, and the task's timeout handler
    is never called. *)
Theorem C5_send_on_closed_retChan :
  let t := mkTasker "a" (Returns "v" None) (Some HReturns) in
  let tg := AddTask t (NewTaskGroup "g" [WithDuration 1000; WithCollectRet]) in
  exists s evs,
    execution tg [AWorker 0 true; AWorker 0 true; ADeadline;
                  ACollector; ACollector; ACollector;
                  AWorker 0 false; AWorker 0 true; AWorker 0 true] = Some (s, evs) /\
    evs = [EvCloseRetChan; EvSendOnClosed 0;
           EvLogError 0 (panic_log tg 0 "send on closed channel" send_closed_stack);
           EvWgDone 0] /\
    handler_calls evs = [] /\
    forallb exited (workers s) = true /\
    crashed s = false.
Proof.
  simpl. eexists _, _. split; [vm_compute; reflexivity|].
  split; [vm_compute; reflexivity|]. split; [reflexivity|]. split; reflexivity.
Qed.

(** ** C4: a task that panics *)

(** The worker of a task whose Execute panics goes from the call to the
    deferred recover, logs once, and leaves through [wg.Done]. *)
Lemma panicking_worker tg s evs i w r st :
  Inv tg s evs -> workers s !! i = Some w -> Execute (w_task w) = Panics r st ->
  (w_pc w = WExecute /\ hist i evs = []) \/
  (w_pc w = WRecover (Some (r, st)) /\ hist i evs = []) \/
  (w_pc w = WWgDone /\ hist i evs = [EvLogError i (panic_log tg i r st)]) \/
  (w_pc w = WExit /\ hist i evs = [EvLogError i (panic_log tg i r st); EvWgDone i]).
Proof.
  intros HI Hi Hexe. destruct (inv_worker _ _ _ HI i w Hi) as (_ & _ & Hroute).
  unfold route_ok in Hroute.
  assert (Hb : forall r0 h0, before_defer (w_task w) i r0 h0 ->
                 r0 = Some (r, st) /\ h0 = []).
  { intros r0 h0 Hb. unfold before_defer in Hb. rewrite Hexe in Hb.
    destruct r0 as [[p st']|].
    - destruct Hb as [[[= -> ->] ->]|(v & e & ? & _)]; done.
    - destruct Hb as (v & e & ? & _). done. }
  destruct (w_pc w) as [|ret|ret|ret| |r0| |].
  - by left.
  - destruct Hroute as [Hr _]. by rewrite Hexe in Hr.
  - destruct Hroute as [Hr _]. by rewrite Hexe in Hr.
  - destruct Hroute as [Hr _]. by rewrite Hexe in Hr.
  - destruct Hroute as (v & e & Hr & _). by rewrite Hexe in Hr.
  - destruct (Hb _ _ Hroute) as [-> ->]. right. left. done.
  - destruct Hroute as (r0 & h0 & Hbd & ->). destruct (Hb _ _ Hbd) as [-> ->].
    right. right. left. done.
  - destruct Hroute as (r0 & h0 & Hbd & ->). destruct (Hb _ _ Hbd) as [-> ->].
    right. right. right. done.
Qed.

Definition t_alpha : Tasker := mkTasker "alpha" (Panics "boom" ("goroutine 7 [running]:" ++ String LF "main.f")) None.

(** Every string a log call carries. *)
Definition log_strings (c : LogCall) : list string :=
  lc_message c :: lc_err c ::
  omap (fun kv => match kv.2 with LStr v => Some v | LInt _ => None end)
       (map_to_list (lc_data c)).

(** C4 fails as stated: the entry logged for a panicking task carries the
    group's name, the index and the stack, but not the task's name, which the
    worker cannot obtain from the [Tasker] interface. *)
Lemma C4_counterexample :
  let tg := AddTask t_alpha (NewTaskGroup "g" [WithDuration 1000]) in
  exists s evs c,
    execution tg [AWorker 0 true; AWorker 0 true; AWorker 0 true] = Some (s, evs) /\
    logs evs = [c] /\
    lc_message c = "task run error" /\ lc_err c = "boom" /\
    lc_data c !! "name" = Some (LStr "g") /\
    lc_data c !! "i" = Some (LInt 0) /\
    lc_data c !! "stack" = Some (LStr "main.f") /\
    size (lc_data c) = 3%nat /\
    Forall (fun v => v <> TaskName t_alpha) (log_strings c).
Proof.
  simpl. eexists _, _, _. split; [vm_compute; reflexivity|].
  split; [reflexivity|]. split; [reflexivity|]. split; [reflexivity|].
  split; [reflexivity|]. split; [reflexivity|]. split; [reflexivity|].
  split; [vm_compute; reflexivity|].
  vm_compute. repeat constructor; discriminate.
Qed.

Lemma panic_log_fields tg i r st :
  lc_logger (panic_log tg i r st) = log tg /\
  lc_message (panic_log tg i r st) = "task run error" /\
  lc_err (panic_log tg i r st) = r /\
  lc_data (panic_log tg i r st) !! "name" = Some (LStr (name tg)) /\
  lc_data (panic_log tg i r st) !! "i" = Some (LInt i) /\
  lc_data (panic_log tg i r st) !! "stack" = Some (LStr (log_stack st)).
Proof.
  unfold panic_log. simpl. split_and!; done.
Qed.

(** Only a logger whose [Error] panics can end the process. *)
Lemma fatal_sound_logger tg s a :
  log_Error (log tg) <> LogPanics -> fatal tg s a = false.
Proof.
  intros Hlog. unfold fatal. destruct a as [i c| | | |]; try done.
  destruct (workers s !! i) as [w|]; [|done].
  destruct (w_pc w) as [| | | | |[[p st]|]| |]; try done.
  by destruct (log_Error (log tg)).
Qed.

(** C4, amended: when the group's logger is not nil and its Error method
    returns, a panic of a task's Execute is recovered in its own worker.  The
    program does not crash and no step of any goroutine ends the process;
    the worker logs exactly one error through the group's logger, carrying
    the panic value, the group's name, the task's index and the stack (no
    task name), then calls [wg.Done] once and exits, and it can always take
    its next step until then.  None of its steps changes [retChan], [ch],
    the context, the collector or any other worker, so no sibling is stopped
    and no sibling's result is lost. *)
Theorem C4_panic_is_contained tg sched s evs i t r st :
  check tg = None ->
  log_Error (log tg) = LogReturns ->
  execution tg sched = Some (s, evs) ->
  tasks tg !! i = Some t ->
  Execute t = Panics r st ->
  crashed s = false /\
  (forall a, fatal tg s a = false) /\
  (exists w, workers s !! i = Some w /\ w_task w = t /\
     hist i evs `prefix_of` [EvLogError i (panic_log tg i r st); EvWgDone i] /\
     (w_pc w = WExit <-> hist i evs = [EvLogError i (panic_log tg i r st); EvWgDone i]) /\
     (w_pc w <> WExit -> forall c, exists s' e, step tg s (AWorker i c) = Some (s', e))) /\
  (lc_logger (panic_log tg i r st) = log tg /\
   lc_message (panic_log tg i r st) = "task run error" /\
   lc_err (panic_log tg i r st) = r /\
   lc_data (panic_log tg i r st) !! "name" = Some (LStr (name tg)) /\
   lc_data (panic_log tg i r st) !! "i" = Some (LInt i) /\
   lc_data (panic_log tg i r st) !! "stack" = Some (LStr (log_stack st))) /\
  (forall c s' e, step tg s (AWorker i c) = Some (s', e) ->
     crashed s' = false /\ retChan s' = retChan s /\ ch s' = ch s /\
     rctx s' = rctx s /\ collector s' = collector s /\
     forall j, j <> i -> workers s' !! j = workers s !! j /\ hist j e = []).
Proof.
  intros Hc Hlog Hex Ht Hexe. pose proof (inv_execution tg sched s evs Hc Hex) as HI.
  pose proof (inv_crashed _ _ _ HI) as Hcr.
  assert (Hlt : (i < length (workers s))%nat).
  { rewrite (inv_length _ _ _ HI). by eapply lookup_lt_Some. }
  destruct (lookup_lt_is_Some_2 _ _ Hlt) as [w Hi].
  destruct (inv_worker _ _ _ HI i w Hi) as (Ht' & Hidx & _).
  assert (Htask : w_task w = t) by congruence.
  rewrite <- Htask in Hexe.
  pose proof (panicking_worker tg s evs i w r st HI Hi Hexe) as Hpw.
  assert (Hwg : w_pc w <> WExit -> exists n, wg s = S n).
  { intros Hne. assert (Hrun : exited w = false) by (unfold exited; by destruct (w_pc w)).
    pose proof (running_pos _ _ _ Hi Hrun) as Hpos.
    rewrite <- (inv_wg _ _ _ HI) in Hpos. destruct (wg s); [lia|by eexists]. }
  split; [done|]. split; [intros a; apply fatal_sound_logger; by rewrite Hlog|].
  split; [|split; [apply panic_log_fields|]].
  - exists w. split_and!; [done|done| | |].
    + destruct Hpw as [[_ ->]|[[_ ->]|[[_ ->]|[_ ->]]]];
        [apply prefix_nil|apply prefix_nil| |done].
      by exists [EvWgDone i].
    + destruct Hpw as [[Hp ->]|[[Hp ->]|[[Hp ->]|[Hp ->]]]]; rewrite Hp; done.
    + intros Hne c. unfold step, step_worker. rewrite Hcr, Hi. simpl.
      destruct Hpw as [[Hp _]|[[Hp _]|[[Hp _]|[Hp _]]]]; rewrite Hp in *; try done.
      * rewrite Hexe. by eexists _, _.
      * rewrite Hlog. by eexists _, _.
      * destruct (Hwg Hne) as [n ->]. by eexists _, _.
  - intros c s' e Hstep. unfold step, step_worker in Hstep.
    rewrite Hcr, Hi in Hstep. simpl in Hstep.
    assert (Hother : forall pc' j, j <> i ->
              <[i := mkWorker (w_task w) (w_index w) pc']> (workers s) !! j = workers s !! j).
    { intros pc' j Hj. by apply list_lookup_insert_ne. }
    destruct Hpw as [[Hp _]|[[Hp _]|[[Hp _]|[Hp _]]]]; rewrite Hp in Hstep; try done.
    + rewrite Hexe in Hstep. injection Hstep as <- <-. simpl.
      split_and!; try done. intros j Hj. split; [by apply Hother|done].
    + rewrite Hlog in Hstep. injection Hstep as <- <-. simpl.
      split_and!; try done. intros j Hj. split; [by apply Hother|].
      unfold hist. rewrite filter_cons_False; [done|]. simpl. rewrite Hidx.
      rewrite bool_decide_eq_false_2; [by intros []|done].
    + destruct Hwg as [n Hn]; [by rewrite Hp|]. rewrite Hn in Hstep.
      injection Hstep as <- <-. simpl.
      split_and!; try done. intros j Hj. split; [by apply Hother|].
      unfold hist. rewrite filter_cons_False; [done|]. simpl. rewrite Hidx.
      rewrite bool_decide_eq_false_2; [by intros []|done].
Qed.

Lemma C4_panic_is_contained_witness :
  let tg := AddTasks [t_alpha; mkTasker "beta" (Returns "v" None) None]
              (NewTaskGroup "g" [WithDuration 1000; WithCollectRet]) in
  let sched := [AWorker 0 true; AWorker 1 true; AWorker 0 true; AWorker 0 true] in
  exists s evs,
    execution tg sched = Some (s, evs) /\
    hist 0 evs = [EvLogError 0 (panic_log tg 0 "boom"
                    ("goroutine 7 [running]:" ++ String LF "main.f")); EvWgDone 0] /\
    crashed s = false.
Proof.
  intros tg sched.
  destruct (execution tg sched) as [[s evs]|] eqn:He; [|by vm_compute in He].
  exists s, evs. split; [done|].
  destruct (C4_panic_is_contained tg sched s evs 0 t_alpha "boom"
              ("goroutine 7 [running]:" ++ String LF "main.f") eq_refl eq_refl He
              eq_refl eq_refl)
    as (Hcr & _).
  split; [|done].
  vm_compute in He. injection He as <- <-. vm_compute. reflexivity.
Defined.

(** ** C10: workers that return after the context is cancelled *)

(** [ctx.Done()] stays closed. *)
Lemma step_ctx_done tg s a s' e :
  step tg s a = Some (s', e) -> ctx_done s = true -> ctx_done s' = true.
Proof.
  unfold step, ctx_done. destruct (crashed s); [done|].
  destruct a as [i c| | | |].
  - unfold step_worker, send_case, timeout_path, chan_send.
    destruct (workers s !! i) as [w|]; simpl; [|done].
    intros Hstep Hd.
    repeat (match type of Hstep with
            | context [match ?x with _ => _ end] => destruct x eqn:?
            | context [if ?x then _ else _] => destruct x eqn:?
            end; simpl in Hstep; try done);
      injection Hstep as <- <-; done.
  - unfold step_waiter, chan_close. intros Hstep Hd.
    destruct (waiter s) as [[]|]; simpl in Hstep; try done;
      repeat (match type of Hstep with
              | context [if ?x then _ else _] => destruct x eqn:?
              end; simpl in Hstep; try done);
      injection Hstep as <- <-; done.
  - unfold step_collector, chan_close, chan_send. intros Hstep Hd.
    destruct (collector s) as [[]|]; simpl in Hstep; try done;
      repeat (match type of Hstep with
              | context [match ?x with _ => _ end] => destruct x eqn:?
              | context [if ?x then _ else _] => destruct x eqn:?
              end; simpl in Hstep; try done);
      injection Hstep as <- <-; done.
  - unfold step_deadline. destruct (has_timer (rctx s)); [|done]. by intros [= <- <-].
  - unfold step_parent. destruct (has_parent (rctx s)); [|done]. by intros [= <- <-].
Qed.

(** What one step of worker [j] can change: its own program point, and it
    enters the inner select only from the first one with the deadline signal
    not fired, and sends only from the inner select. *)
Lemma step_worker_shape tg j c s s' e :
  step_worker tg j c s = Some (s', e) ->
  exists w, workers s !! j = Some w /\
    (workers s' = workers s \/
     exists pc', workers s' = <[j := mkWorker (w_task w) (w_index w) pc']> (workers s) /\
       ((exists ret, pc' = WRace ret) -> (exists ret, w_pc w = WSelect ret) /\ ctx_done s = false) /\
       (pc' = WExecute -> False)) /\
    (forall i r, EvSend i r ∈ e -> i = w_index w /\ exists ret, w_pc w = WRace ret) /\
    (forall i, EvSendOnClosed i ∈ e -> i = w_index w /\ exists ret, w_pc w = WRace ret) /\
    (forall i v er, EvTimeoutHandler i v er ∈ e ->
       i = w_index w /\ w_pc w = WTimeout (mkResult v er)).
Proof.
  unfold step_worker, send_case, timeout_path, chan_send.
  destruct (workers s !! j) as [w|]; simpl; [|done].
  intros Hstep. exists w. split; [done|].
  repeat (match type of Hstep with
          | context [match ?x with _ => _ end] => destruct x eqn:?
          | context [if ?x then _ else _] => destruct x eqn:?
          end; simpl in Hstep; try done);
    injection Hstep as <- <-; simpl;
    (split; [first [by left | right; eexists; split; [reflexivity|];
                    split; [intros [? [=]]; subst; by eauto | done]]|]);
    split_and!; intros; repeat match goal with
      | H : _ ∈ [] |- _ => by apply elem_of_nil in H
      | H : _ ∈ [_] |- _ => apply list_elem_of_singleton in H; simplify_eq
      end; eauto; by destruct ret.
Qed.

Lemma handler_calls_log_events tg j r : handler_calls (log_events tg j r) = [].
Proof. by destruct r as [[p st]|]. Qed.



(** What is kept for worker [i] once the context is cancelled while the
    worker has not yet made its first check. *)
Definition after_cancel (i : nat) (s : State) (evs : list Event) : Prop :=
  ctx_done s = true /\
  (exists w, workers s !! i = Some w /\ forall ret, w_pc w <> WRace ret) /\
  (forall r, EvSend i r ∉ evs) /\ EvSendOnClosed i ∉ evs.

Lemma after_cancel_step tg i s evs a s' e :
  Inv tg s evs -> after_cancel i s evs -> step tg s a = Some (s', e) ->
  after_cancel i s' (evs ++ e).
Proof.
  intros HI (Hd & (w & Hi & Hpc) & Hns & Hnc) Hstep.
  split; [by eapply step_ctx_done|].
  destruct (is_worker_action a) eqn:Ha.
  - destruct a as [j c| | | |]; try done.
    unfold step in Hstep. rewrite (inv_crashed _ _ _ HI) in Hstep.
    destruct (step_worker_shape _ _ _ _ _ _ Hstep) as (wj & Hj & Hws & Hsend & Hclosed & _).
    destruct (inv_worker _ _ _ HI j wj Hj) as (_ & Hidx & _).
    split_and!.
    + destruct Hws as [->|(pc' & -> & Hrace & _)]; [by exists w|].
      destruct (decide (j = i)) as [->|Hne].
      * eexists. split; [apply list_lookup_insert_eq; by eapply lookup_lt_Some|].
        simpl. intros ret ->. destruct Hrace as [_ Hnd]; [by eexists|]. congruence.
      * exists w. by rewrite list_lookup_insert_ne.
    + intros r Hin. apply elem_of_app in Hin as [Hin|Hin]; [by apply (Hns r)|].
      destruct (Hsend _ _ Hin) as [-> [ret Hp]]. rewrite Hidx in *.
      rewrite Hi in Hj. injection Hj as <-. by apply (Hpc ret).
    + intros Hin. apply elem_of_app in Hin as [Hin|Hin]; [done|].
      destruct (Hclosed _ Hin) as [-> [ret Hp]]. rewrite Hidx in *.
      rewrite Hi in Hj. injection Hj as <-. by apply (Hpc ret).
  - destruct (step_no_worker tg s a s' e Ha Hstep) as [Hw Hh].
    split_and!; [exists w; by rewrite Hw| |].
    + intros r Hin. apply elem_of_app in Hin as [Hin|Hin]; [by apply (Hns r)|].
      assert (Hin' : EvSend i r ∈ hist i e).
      { apply elem_of_hist. split; [done|]. simpl. by rewrite bool_decide_eq_true_2. }
      rewrite Hh in Hin'. by apply elem_of_nil in Hin'.
    + intros Hin. apply elem_of_app in Hin as [Hin|Hin]; [done|].
      assert (Hin' : EvSendOnClosed i ∈ hist i e).
      { apply elem_of_hist. split; [done|]. simpl. by rewrite bool_decide_eq_true_2. }
      rewrite Hh in Hin'. by apply elem_of_nil in Hin'.
Qed.




(** * Further properties of the code *)

(** ** check, isTimeout *)

(** The two validation errors and their order: the empty task list is
    reported first, the missing timeout only for a non-empty list; a zero or
    negative duration counts as no timeout. *)
Theorem check_cases tg :
  (check tg = Some "no tasks to execute" <-> tasks tg = []) /\
  (check tg = Some "no timeout set for result collection" <->
     tasks tg <> [] /\ collectResult tg = true /\ (timeout tg <= 0)%Z) /\
  (check tg = None <->
     tasks tg <> [] /\ (collectResult tg = true -> (0 < timeout tg)%Z)).
Proof.
  unfold check, isTimeout. destruct (tasks tg) as [|t ts]; simpl.
  { split_and!; split; try done; by intros [? _]. }
  destruct (collectResult tg); simpl; destruct (Z.ltb_spec 0 (timeout tg)); simpl;
    split_and!; split; try done; try (by intros [? _]); try (intros (_ & ? & ?); lia);
    try (intros [_ ?]; lia); try (intros _; split_and!; try done; lia);
    try (intros [_ H']; specialize (H' eq_refl); lia); try (by intros (_ & ? & _)).
Qed.

(** ** Options and NewTaskGroup *)

Definition duration_of (opt : Option) : option Z :=
  match opt with durationOption d => Some d | _ => None end.
Definition collect_of (opt : Option) : option bool :=
  match opt with collectRetOption c => Some c | _ => None end.
Definition log_of (opt : Option) : option Logger :=
  match opt with logOption l => Some l | _ => None end.
Definition ctx_of (opt : Option) : option (option Context) :=
  match opt with ctxOption c => Some c | _ => None end.

Lemma NewTaskGroup_snoc nm opts opt :
  NewTaskGroup nm (opts ++ [opt]) =
  mkGroup nm []
    (default (timeout (NewTaskGroup nm opts)) (duration_of opt))
    (default (collectResult (NewTaskGroup nm opts)) (collect_of opt))
    (default (log (NewTaskGroup nm opts)) (log_of opt))
    (default (ctx (NewTaskGroup nm opts)) (ctx_of opt)).
Proof.
  unfold NewTaskGroup. rewrite foldl_app. simpl. by destruct opt.
Qed.

(** NewTaskGroup starts from no timeout, no collection, the default logger
    and no context, without tasks; each field ends up with the value of the
    last option given for it, and options for other fields leave it alone. *)
Theorem NewTaskGroup_last_option_wins nm opts :
  name (NewTaskGroup nm opts) = nm /\
  tasks (NewTaskGroup nm opts) = [] /\
  timeout (NewTaskGroup nm opts) = default 0%Z (last (omap duration_of opts)) /\
  collectResult (NewTaskGroup nm opts) = default false (last (omap collect_of opts)) /\
  log (NewTaskGroup nm opts) = default defaultLog (last (omap log_of opts)) /\
  ctx (NewTaskGroup nm opts) = default None (last (omap ctx_of opts)).
Proof.
  split; [done|]. split; [done|].
  induction opts as [|opt opts IH] using rev_ind; [done|].
  rewrite NewTaskGroup_snoc. simpl. rewrite !omap_app. simpl.
  destruct IH as (IH1 & IH2 & IH3 & IH4).
  destruct opt; simpl; rewrite ?app_nil_r, ?last_snoc; done.
Qed.

(** The options a caller outside the package can build. *)
Definition exported_option (opt : Option) : Prop :=
  (exists l, opt = WithLog l) \/ (exists d, opt = WithDuration d) \/
  (exists c, opt = WithCtx c) \/ opt = WithCollectRet.

(** With the exported constructors, collection can be switched on but not
    off again.  The context and the logger are what the last [WithCtx] and
    the last [WithLog] were given, nil included: a group has a context only
    if some [WithCtx] gave it, a later [WithCtx(nil)] takes it away again,
    and the logger is nil only if some [WithLog(nil)] asked for it. *)
Theorem exported_options_collect nm opts :
  Forall exported_option opts ->
  (collectResult (NewTaskGroup nm opts) = true <-> WithCollectRet ∈ opts) /\
  (forall c, ctx (NewTaskGroup nm opts) = Some c -> WithCtx (Some c) ∈ opts) /\
  (forall c, ctx (NewTaskGroup nm (opts ++ [WithCtx c])) = c) /\
  (log (NewTaskGroup nm opts) = nilLog -> WithLog nilLog ∈ opts) /\
  (forall l, log (NewTaskGroup nm (opts ++ [WithLog l])) = l).
Proof.
  intros Hall. split_and!.
  - induction opts as [|opt opts IH] using rev_ind; [split; [done|]|].
    { intros Hin. by apply elem_of_nil in Hin. }
    apply Forall_app in Hall as [Hall Hopt].
    apply (proj1 (Forall_singleton _ _)) in Hopt. specialize (IH Hall).
    rewrite NewTaskGroup_snoc. cbn [collectResult].
    rewrite elem_of_app, list_elem_of_singleton.
    destruct Hopt as [[l ->]|[[d ->]|[[c ->]| ->]]];
      cbn [collect_of WithLog WithDuration WithCtx WithCollectRet default from_option id];
      [rewrite IH; split; [by left|by intros [?|?]]..|].
    split; [by right|done].
  - induction opts as [|opt opts IH] using rev_ind; [done|].
    apply Forall_app in Hall as [Hall Hopt].
    apply (proj1 (Forall_singleton _ _)) in Hopt. specialize (IH Hall).
    intros c. rewrite NewTaskGroup_snoc. cbn [ctx].
    rewrite elem_of_app, list_elem_of_singleton.
    destruct Hopt as [[l ->]|[[d ->]|[[c' ->]| ->]]];
      cbn [ctx_of WithLog WithDuration WithCtx WithCollectRet default from_option id].
    + intros Hc. left. by apply IH.
    + intros Hc. left. by apply IH.
    + intros ->. by right.
    + intros Hc. left. by apply IH.
  - intros c. by rewrite NewTaskGroup_snoc.
  - induction opts as [|opt opts IH] using rev_ind; [done|].
    apply Forall_app in Hall as [Hall Hopt].
    apply (proj1 (Forall_singleton _ _)) in Hopt. specialize (IH Hall).
    rewrite NewTaskGroup_snoc. cbn [log].
    rewrite elem_of_app, list_elem_of_singleton.
    destruct Hopt as [[l ->]|[[d ->]|[[c' ->]| ->]]];
      cbn [log_of WithLog WithDuration WithCtx WithCollectRet default from_option id].
    + intros ->. by right.
    + intros Hc. left. by apply IH.
    + intros Hc. left. by apply IH.
    + intros Hc. left. by apply IH.
  - intros l. by rewrite NewTaskGroup_snoc.
Qed.

Lemma exported_options_collect_witness :
  let opts := [WithCtx (Some (Cancellable false)); WithCollectRet; WithDuration 5;
               WithLog (customLog "l" LogReturns); WithCtx None] in
  Forall exported_option opts /\
  collectResult (NewTaskGroup "g" opts) = true /\
  ctx (NewTaskGroup "g" opts) = None.
Proof.
  intros opts.
  assert (Hall : Forall exported_option opts).
  { apply Forall_cons_2; [right; right; left; by eexists|].
    apply Forall_cons_2; [right; right; by right|].
    apply Forall_cons_2; [right; left; by eexists|].
    apply Forall_cons_2; [left; by eexists|].
    apply Forall_cons_2; [right; right; left; by eexists|]. constructor. }
  split; [done|].
  destruct (exported_options_collect "g" opts Hall) as (Hcol & _).
  split; [|done].
  apply Hcol. apply list_elem_of_further, list_elem_of_here.
Defined.

(** ** AddTask, AddTasks, AddTaskFunc, Reset, WithContext *)

(** type TaskFunc func() (interface{}, error): a function value used as a
    task.  Its only method is [Execute], which calls the function, so it has
    no timeout handler (and no name). *)
Definition TaskFunc := ExecuteBehaviour.

Definition TaskFunc_Execute (f : TaskFunc) : ExecuteBehaviour := f.

Definition TaskFunc_Tasker (f : TaskFunc) : Tasker :=
  mkTasker "" (TaskFunc_Execute f) None.

Definition AddTaskFunc (fn : TaskFunc) (tg : Group) : Group :=
  AddTasks [TaskFunc_Tasker fn] tg.

Lemma before_defer_no_handler t j r h0 :
  before_defer t j r h0 -> TimeoutHandler t = None -> handler_calls h0 = [].
Proof.
  unfold before_defer. intros Hb Hn. rewrite Hn in Hb. destruct r as [[p st]|].
  - destruct Hb as [[_ ->]|(v & e & _ & [(_ & _ & ->)|(? & _)])]; done.
  - destruct Hb as (v & e & _ & [->|[(_ & ->)|(? & _)]]); done.
Qed.

Lemma no_handler_no_call tg s evs i w :
  Inv tg s evs -> workers s !! i = Some w -> TimeoutHandler (w_task w) = None ->
  handler_calls (hist i evs) = [].
Proof.
  intros HI Hi Hn. destruct (inv_worker _ _ _ HI i w Hi) as (_ & _ & Hroute).
  unfold route_ok in Hroute. destruct (w_pc w) as [|ret|ret|ret| |r| |].
  - by rewrite Hroute.
  - by destruct Hroute as [_ ->].
  - by destruct Hroute as [_ ->].
  - by destruct Hroute as [_ ->].
  - destruct Hroute as (v & e & _ & Hh & _). by rewrite Hn in Hh.
  - by eapply before_defer_no_handler.
  - destruct Hroute as (r & h0 & Hb & ->).
    rewrite handler_calls_app, handler_calls_log_events, app_nil_r.
    by eapply before_defer_no_handler.
  - destruct Hroute as (r & h0 & Hb & ->).
    rewrite !handler_calls_app, handler_calls_log_events. simpl. rewrite app_nil_r.
    by eapply before_defer_no_handler.
Qed.

(** Tasks are appended in call order and keep their positions: adding in two
    calls is adding the concatenation, a task added to a group of [n] tasks
    becomes task [n], and when ExecChan returns the worker at position [i]
    runs task [i] with index [i].  [AddTaskFunc] adds one task in the same
    way: the task's Execute is the call of the function and it has no
    timeout handler, so none is ever called for it. *)
Theorem AddTasks_positions tg ts1 ts2 t fn k :
  AddTasks ts2 (AddTasks ts1 tg) = AddTasks (ts1 ++ ts2) tg /\
  tasks (AddTask t tg) !! length (tasks tg) = Some t /\
  (forall i, (i < length (tasks tg))%nat ->
     tasks (AddTasks ts1 tg) !! i = tasks tg !! i) /\
  tasks (AddTasks ts1 tg) !! (length (tasks tg) + k)%nat = ts1 !! k /\
  (check (AddTasks ts1 tg) = None ->
     forall i, workers (ExecChan (AddTasks ts1 tg)).1 !! i =
               (fun t => mkWorker t i WExecute) <$> tasks (AddTasks ts1 tg) !! i) /\
  tasks (AddTaskFunc fn tg) = tasks tg ++ [TaskFunc_Tasker fn] /\
  AddTaskFunc fn (AddTasks ts1 tg) = AddTasks (ts1 ++ [TaskFunc_Tasker fn]) tg /\
  Execute (TaskFunc_Tasker fn) = fn /\
  TimeoutHandler (TaskFunc_Tasker fn) = None /\
  (check (AddTaskFunc fn tg) = None ->
     workers (ExecChan (AddTaskFunc fn tg)).1 !! length (tasks tg) =
       Some (mkWorker (TaskFunc_Tasker fn) (length (tasks tg)) WExecute) /\
     forall c, step (AddTaskFunc fn tg) (ExecChan (AddTaskFunc fn tg)).1
                 (AWorker (length (tasks tg)) c) =
       match fn with
       | Returns v e =>
           Some (set_pc (length (tasks tg))
                   (mkWorker (TaskFunc_Tasker fn) (length (tasks tg)) WExecute)
                   (WSelect (mkResult v e)) (ExecChan (AddTaskFunc fn tg)).1, [])
       | Panics r stack =>
           Some (set_pc (length (tasks tg))
                   (mkWorker (TaskFunc_Tasker fn) (length (tasks tg)) WExecute)
                   (WRecover (Some (r, stack))) (ExecChan (AddTaskFunc fn tg)).1, [])
       | Hangs => None
       end) /\
  (forall sched s evs,
     execution (AddTaskFunc fn tg) sched = Some (s, evs) ->
     handler_calls (hist (length (tasks tg)) evs) = []).
Proof.
  assert (Hw : check (AddTaskFunc fn tg) = None ->
     workers (ExecChan (AddTaskFunc fn tg)).1 !! length (tasks tg) =
       Some (mkWorker (TaskFunc_Tasker fn) (length (tasks tg)) WExecute)).
  { intros Hc. unfold ExecChan. rewrite Hc. simpl. unfold run.
    rewrite list_lookup_imap. unfold AddTaskFunc, AddTasks. simpl.
    by rewrite lookup_app_r, Nat.sub_diag by lia. }
  split_and!.
  - unfold AddTasks. simpl. by rewrite app_assoc.
  - unfold AddTask, AddTasks. simpl. by rewrite lookup_app_r, Nat.sub_diag by lia.
  - intros i Hi. unfold AddTasks. simpl. by rewrite lookup_app_l.
  - unfold AddTasks. simpl. rewrite lookup_app_r by lia. f_equal. lia.
  - intros Hc i. unfold ExecChan. rewrite Hc. simpl. unfold run.
    by rewrite list_lookup_imap.
  - done.
  - unfold AddTaskFunc, AddTasks. simpl. by rewrite app_assoc.
  - done.
  - done.
  - intros Hc. split; [by apply Hw|]. intros c.
    unfold step, step_worker. rewrite (Hw Hc).
    assert (Hcr : crashed (ExecChan (AddTaskFunc fn tg)).1 = false).
    { unfold ExecChan. by rewrite Hc. }
    rewrite Hcr. simpl. by destruct fn.
  - intros sched s evs Hex. destruct (check (AddTaskFunc fn tg)) as [err|] eqn:Hc.
    + by destruct (failed_execution _ err sched s evs Hc Hex) as (-> & -> & ->).
    + pose proof (inv_execution _ sched s evs Hc Hex) as HI.
      assert (Hlt : (length (tasks tg) < length (workers s))%nat).
      { rewrite (inv_length _ _ _ HI). unfold AddTaskFunc, AddTasks. simpl.
        rewrite length_app. simpl. lia. }
      destruct (lookup_lt_is_Some_2 _ _ Hlt) as [w Hi].
      destruct (inv_worker _ _ _ HI _ w Hi) as (Ht & _ & _).
      apply (no_handler_no_call _ s evs _ w HI Hi).
      unfold AddTaskFunc, AddTasks in Ht. simpl in Ht.
      rewrite lookup_app_r, Nat.sub_diag in Ht by lia. simpl in Ht.
      by injection Ht as <-.
Qed.

Lemma AddTasks_positions_witness :
  let tg := AddTask (mkTasker "a" (Returns "v" None) (Some HReturns))
              (NewTaskGroup "g" [WithDuration 1000; WithCollectRet]) in
  let fn := Returns "f" (Some "failed") in
  let sched := [ADeadline; AWorker 1 true; AWorker 1 true; AWorker 1 true;
                AWorker 0 true; AWorker 0 true; AWorker 0 true] in
  exists s evs,
    check (AddTaskFunc fn tg) = None /\
    tasks (AddTaskFunc fn tg) !! 1%nat = Some (TaskFunc_Tasker fn) /\
    execution (AddTaskFunc fn tg) sched = Some (s, evs) /\
    handler_calls (hist 0 evs) = [(0%nat, "v", None)] /\
    handler_calls (hist 1 evs) = [].
Proof.
  intros tg fn sched.
  destruct (execution (AddTaskFunc fn tg) sched) as [[s evs]|] eqn:He;
    [|by vm_compute in He].
  exists s, evs.
  destruct (AddTasks_positions tg [] [] (TaskFunc_Tasker fn) fn 0)
    as (_ & _ & _ & _ & _ & Hts & _ & _ & _ & _ & Hnone).
  split_and!; [done|by rewrite Hts|done| |by apply (Hnone sched s evs He)].
  vm_compute in He. by injection He as <- <-.
Defined.

(** Reset keeps the configuration (name, timeout, collection flag, logger)
    and drops the tasks and the context; doing it twice changes nothing more.
    A group that is reset and given new tasks is validated on those tasks and
    the old configuration alone. *)
Theorem Reset_keeps_configuration tg ts :
  name (Reset tg) = name tg /\ timeout (Reset tg) = timeout tg /\
  collectResult (Reset tg) = collectResult tg /\ log (Reset tg) = log tg /\
  tasks (Reset tg) = [] /\ ctx (Reset tg) = None /\
  Reset (Reset tg) = Reset tg /\
  Reset (AddTasks ts tg) = Reset tg /\
  tasks (AddTasks ts (Reset tg)) = ts /\
  (ts <> [] ->
   check (AddTasks ts (Reset tg)) =
     if collectResult tg && negb (isTimeout tg)
     then Some "no timeout set for result collection" else None).
Proof.
  split_and!; try done.
  intros Hts. unfold check, isTimeout. simpl. by destruct ts.
Qed.

Lemma Reset_keeps_configuration_witness :
  let tg := AddTask (mkTasker "a" Hangs None)
              (NewTaskGroup "g" [WithDuration 7; WithCollectRet; WithCtx (Some (Cancellable true))]) in
  let ts := [mkTasker "b" (Returns "v" None) None] in
  ts <> [] /\ check (AddTasks ts (Reset tg)) = None.
Proof.
  intros tg ts. split; [done|].
  assert (Hts : ts <> []) by done.
  destruct (Reset_keeps_configuration tg ts)
    as (_ & _ & _ & _ & _ & _ & _ & _ & _ & Hcheck).
  by rewrite (Hcheck Hts).
Defined.

(** ** takeContext *)


(** ** The logged stack (lines 280-283) *)

Fixpoint contains_LF (s : string) : bool :=
  match s with
  | EmptyString => false
  | String c rest => Ascii.eqb c LF || contains_LF rest
  end.

Lemma after_first_line_app l rest :
  contains_LF l = false ->
  after_first_line (l ++ String LF rest) = Some rest.
Proof.
  induction l as [|c l IH]; simpl; intros Hnl; [done|].
  destruct (Ascii.eqb c LF); [done|]. by apply IH.
Qed.

Lemma after_first_line_none l :
  contains_LF l = false -> after_first_line l = None.
Proof.
  induction l as [|c l IH]; simpl; intros Hnl; [done|].
  destruct (Ascii.eqb c LF); [done|]. by apply IH.
Qed.

(** The stack is logged without its first line, that is without everything
    up to and including the first newline; a stack without any newline is
    logged as it is. *)
Theorem log_stack_drops_first_line l rest :
  contains_LF l = false ->
  log_stack (l ++ String LF rest) = rest /\ log_stack l = l.
Proof.
  intros Hnl. unfold log_stack.
  by rewrite after_first_line_app, after_first_line_none.
Qed.

Lemma log_stack_drops_first_line_witness :
  log_stack ("goroutine 7 [running]:" ++ String LF ("main.f" ++ String LF "main.g"))%string =
    ("main.f" ++ String LF "main.g")%string /\
  log_stack "goroutine 7 [running]:" = "goroutine 7 [running]:".
Proof.
  apply (log_stack_drops_first_line "goroutine 7 [running]:"). reflexivity.
Defined.

(** ** One route per task *)

(** What a worker did with the pair its task returned. *)
Definition is_decision (ev : Event) : bool :=
  match ev with
  | EvSend _ _ | EvSendOnClosed _ | EvTimeoutHandler _ _ _ => true
  | _ => false
  end.

Definition decisions (j : nat) (evs : list Event) : list Event :=
  filter is_decision (hist j evs).

Lemma decisions_log_events tg j r : filter is_decision (log_events tg j r) = [].
Proof. by destruct r as [[p st]|]. Qed.

Lemma before_defer_decisions t j r h0 :
  before_defer t j r h0 ->
  filter is_decision h0 = h0 /\
  (h0 = [] \/
   exists v e, Execute t = Returns v e /\
     (h0 = [EvSend j (mkResult v e)] \/ h0 = [EvSendOnClosed j] \/
      (TimeoutHandler t <> None /\ h0 = [EvTimeoutHandler j v e]))).
Proof.
  unfold before_defer. intros Hb. destruct r as [[p st]|].
  - destruct Hb as [[_ ->]|(v & e & Hexe & [(_ & _ & ->)|(Hh & ->)])].
    + split; [done|by left].
    + split; [done|]. right. exists v, e. split; [done|]. right. by left.
    + split; [done|]. right. exists v, e. split; [done|]. right. right.
      split; [by rewrite Hh|done].
  - destruct Hb as (v & e & Hexe & [->|[(_ & ->)|(Hh & ->)]]).
    + split; [done|]. right. exists v, e. split; [done|]. by left.
    + split; [done|by left].
    + split; [done|]. right. exists v, e. split; [done|]. right. right.
      split; [by rewrite Hh|done].
Qed.

(** Each task's returned pair takes at most one route: it is sent into
    [retChan], or given to the task's timeout handler, or lost in the panic of
    a send on the closed channel.  So a handler is only ever called for a task
    that has one, with what that task returned, and never for a task whose
    result was sent. *)
Theorem one_route_per_task tg sched s evs i t :
  check tg = None ->
  execution tg sched = Some (s, evs) ->
  tasks tg !! i = Some t ->
  (decisions i evs = [] \/
   exists v e, Execute t = Returns v e /\
     (decisions i evs = [EvSend i (mkResult v e)] \/
      decisions i evs = [EvSendOnClosed i] \/
      (TimeoutHandler t <> None /\ decisions i evs = [EvTimeoutHandler i v e]))) /\
  (forall v e, EvTimeoutHandler i v e ∈ evs ->
     TimeoutHandler t <> None /\ Execute t = Returns v e /\ forall r, EvSend i r ∉ evs) /\
  (TimeoutHandler t = None -> forall v e, EvTimeoutHandler i v e ∉ evs).
Proof.
  intros Hc Hex Ht. pose proof (inv_execution tg sched s evs Hc Hex) as HI.
  assert (Hlt : (i < length (workers s))%nat).
  { rewrite (inv_length _ _ _ HI). by eapply lookup_lt_Some. }
  destruct (lookup_lt_is_Some_2 _ _ Hlt) as [w Hi].
  destruct (inv_worker _ _ _ HI i w Hi) as (Ht' & _ & Hroute).
  assert (Htask : w_task w = t) by congruence. subst t.
  assert (Hmain : decisions i evs = [] \/
     exists v e, Execute (w_task w) = Returns v e /\
       (decisions i evs = [EvSend i (mkResult v e)] \/
        decisions i evs = [EvSendOnClosed i] \/
        (TimeoutHandler (w_task w) <> None /\ decisions i evs = [EvTimeoutHandler i v e]))).
  { unfold decisions. unfold route_ok in Hroute.
    destruct (w_pc w) as [|ret|ret|ret| |r| |].
    - rewrite Hroute. by left.
    - destruct Hroute as [_ ->]. by left.
    - destruct Hroute as [_ ->]. by left.
    - destruct Hroute as [_ ->]. by left.
    - destruct Hroute as (v & e & Hexe & Hh & ->). right. exists v, e.
      split; [done|]. right. right. split; [by rewrite Hh|done].
    - destruct (before_defer_decisions _ _ _ _ Hroute) as [-> H]. done.
    - destruct Hroute as (r & h0 & Hb & ->).
      destruct (before_defer_decisions _ _ _ _ Hb) as [Hf H].
      rewrite filter_app, decisions_log_events, app_nil_r, Hf.
      destruct H as [->|H]; [by left|by right].
    - destruct Hroute as (r & h0 & Hb & ->).
      destruct (before_defer_decisions _ _ _ _ Hb) as [Hf H].
      rewrite !filter_app, decisions_log_events, Hf. simpl. rewrite app_nil_r.
      destruct H as [->|H]; [by left|by right]. }
  assert (Hdec : forall ev, ev ∈ evs -> concerns i ev = true -> is_decision ev = true ->
                            ev ∈ decisions i evs).
  { intros ev Hin Hco Hde. unfold decisions. apply list_elem_of_filter.
    split; [by rewrite Hde|]. by apply elem_of_hist. }
  assert (Hcall : forall v e, EvTimeoutHandler i v e ∈ evs ->
     TimeoutHandler (w_task w) <> None /\ Execute (w_task w) = Returns v e /\
     forall r, EvSend i r ∉ evs).
  { intros v e Hin.
    pose proof (Hdec _ Hin (bool_decide_eq_true_2 _ eq_refl) eq_refl) as Hd.
    destruct Hmain as [Hn|(v0 & e0 & Hexe & [Hn|[Hn|[Hh Hn]]])]; rewrite Hn in Hd.
    - by apply elem_of_nil in Hd.
    - by apply list_elem_of_singleton in Hd.
    - by apply list_elem_of_singleton in Hd.
    - apply list_elem_of_singleton in Hd. injection Hd as -> ->.
      split_and!; [done|done|]. intros r Hs.
      pose proof (Hdec _ Hs (bool_decide_eq_true_2 _ eq_refl) eq_refl) as Hd.
      rewrite Hn in Hd. by apply list_elem_of_singleton in Hd. }
  split_and!; [done|done|].
  intros Hnone v e Hin. by destruct (Hcall v e Hin) as [? _].
Qed.

Lemma one_route_per_task_witness :
  let t := mkTasker "a" (Returns "v" None) (Some HReturns) in
  let tg := AddTask t (NewTaskGroup "g" [WithDuration 1000; WithCollectRet]) in
  let sched := [ADeadline; AWorker 0 true; AWorker 0 true; AWorker 0 true] in
  exists s evs,
    execution tg sched = Some (s, evs) /\
    EvTimeoutHandler 0 "v" None ∈ evs /\
    forall r, EvSend 0 r ∉ evs.
Proof.
  intros t tg sched.
  destruct (execution tg sched) as [[s evs]|] eqn:He; [|by vm_compute in He].
  exists s, evs. split; [done|].
  assert (Hin : EvTimeoutHandler 0 "v" None ∈ evs).
  { vm_compute in He. injection He as <- <-. apply list_elem_of_here. }
  split; [done|].
  destruct (one_route_per_task tg sched s evs 0 t eq_refl He eq_refl) as (_ & Hcall & _).
  by destruct (Hcall "v" None Hin) as (_ & _ & ?).
Defined.

(** ** Only panics are logged *)

Lemma before_defer_no_log t j r h0 c :
  before_defer t j r h0 -> EvLogError j c ∉ h0.
Proof.
  intros Hb Hin. destruct (before_defer_decisions _ _ _ _ Hb) as [Hf _].
  rewrite <- Hf in Hin. apply list_elem_of_filter in Hin as [Hd _]. done.
Qed.

(** The events of a step of worker [j] are worker [j]'s. *)
Lemma step_worker_own tg s evs j c s' e :
  Inv tg s evs -> step_worker tg j c s = Some (s', e) -> Forall (own j) e.
Proof.
  intros HI Hs. unfold step_worker, send_case, timeout_path, chan_send in Hs.
  destruct (workers s !! j) as [wj|] eqn:Hj; simpl in Hs; [|done].
  destruct (inv_worker _ _ _ HI j wj Hj) as (_ & Hidx & _). rewrite Hidx in Hs.
  repeat (match type of Hs with
          | context [match ?x with _ => _ end] => destruct x eqn:?
          | context [if ?x then _ else _] => destruct x eqn:?
          end; simpl in Hs; try done);
    injection Hs as <- <-;
    first [apply own_send | apply own_send_closed
          | apply own_handler | apply own_log | apply own_wg_done | constructor].
Qed.

(** No event carries the index of a worker that does not exist. *)
Lemma hist_out_of_range tg sched s evs i :
  check tg = None -> execution tg sched = Some (s, evs) ->
  (length (tasks tg) <= i)%nat -> hist i evs = [].
Proof.
  intros Hc Hex Hle. unfold execution in Hex.
  destruct (exec tg (ExecChan tg).1 sched) as [[s1 evs1]|] eqn:He; [|done].
  injection Hex as <- <-.
  assert (H0 : (ExecChan tg).2 = []) by (unfold ExecChan; by rewrite Hc).
  rewrite H0. simpl.
  assert (HP : Inv tg s1 ([] ++ evs1) /\ hist i ([] ++ evs1) = []); [|by destruct HP].
  apply (exec_invariant tg (fun s evs => Inv tg s evs /\ hist i evs = []))
    with (sched := sched) (s := (ExecChan tg).1); [|by split; [apply inv_init|]|done].
  intros s0 evs0 a s2 e2 [HI0 Hn0] Hs. split; [by eapply inv_step|].
  rewrite hist_app, Hn0. simpl.
  destruct (is_worker_action a) eqn:Ha.
  - destruct a as [j cj| | | |]; try done. unfold step in Hs.
    rewrite (inv_crashed _ _ _ HI0) in Hs.
    pose proof (step_worker_own _ _ _ _ _ _ _ HI0 Hs) as Hown.
    apply (hist_other j i e2 Hown).
    unfold step_worker in Hs. destruct (workers s0 !! j) as [wj|] eqn:Hj; [|done].
    apply lookup_lt_Some in Hj. rewrite (inv_length _ _ _ HI0) in Hj. lia.
  - by destruct (step_no_worker _ _ _ _ _ Ha Hs) as [_ ->].
Qed.

(** The engine calls the logger's Error method only for a panic: of the
    task's Execute, of its timeout handler, or of the send on the closed
    channel.  An error a task returns is never logged. *)
Theorem logged_only_on_panic tg sched s evs i c :
  check tg = None ->
  execution tg sched = Some (s, evs) ->
  EvLogError i c ∈ evs ->
  exists t p st,
    tasks tg !! i = Some t /\ c = panic_log tg i p st /\
    (Execute t = Panics p st \/
     TimeoutHandler t = Some (HPanics p st) \/
     (p = "send on closed channel" /\ EvSendOnClosed i ∈ evs)).
Proof.
  intros Hc Hex Hin. pose proof (inv_execution tg sched s evs Hc Hex) as HI.
  assert (Hh : EvLogError i c ∈ hist i evs).
  { apply elem_of_hist. split; [done|]. simpl. by rewrite bool_decide_eq_true_2. }
  assert (Hlt : (i < length (workers s))%nat).
  { rewrite (inv_length _ _ _ HI).
    destruct (decide (i < length (tasks tg))%nat) as [|Hge]; [done|].
    rewrite (hist_out_of_range tg sched s evs i Hc Hex) in Hh by lia.
    by apply elem_of_nil in Hh. }
  destruct (lookup_lt_is_Some_2 _ _ Hlt) as [w Hi].
  destruct (inv_worker _ _ _ HI i w Hi) as (Ht & _ & Hroute).
  exists (w_task w).
  assert (Hlog : forall r h0, before_defer (w_task w) i r h0 ->
            EvLogError i c ∈ log_events tg i r ->
            (forall ev, ev ∈ h0 -> ev ∈ evs) ->
            exists p st, c = panic_log tg i p st /\
              (Execute (w_task w) = Panics p st \/
               TimeoutHandler (w_task w) = Some (HPanics p st) \/
               (p = "send on closed channel" /\ EvSendOnClosed i ∈ evs))).
  { intros r h0 Hb Hl Hsub. destruct r as [[p st]|]; simpl in Hl;
      [|by apply elem_of_nil in Hl].
    apply list_elem_of_singleton in Hl. injection Hl as ->.
    exists p, st. split; [done|]. unfold before_defer in Hb.
    destruct Hb as [[? _]|(v & e & _ & [(-> & _ & ->)|(? & _)])];
      [by left| |by right; left].
    right. right. split; [done|]. apply Hsub. apply list_elem_of_here. }
  unfold route_ok in Hroute.
  destruct (w_pc w) as [|ret|ret|ret| |r| |].
  - rewrite Hroute in Hh. by apply elem_of_nil in Hh.
  - destruct Hroute as [_ Hn]. rewrite Hn in Hh. by apply elem_of_nil in Hh.
  - destruct Hroute as [_ Hn]. rewrite Hn in Hh. by apply elem_of_nil in Hh.
  - destruct Hroute as [_ Hn]. rewrite Hn in Hh. by apply elem_of_nil in Hh.
  - destruct Hroute as (v & e & _ & _ & Hn). rewrite Hn in Hh.
    by apply list_elem_of_singleton in Hh.
  - by apply before_defer_no_log with (c := c) in Hroute.
  - destruct Hroute as (r & h0 & Hb & Hn). rewrite Hn in Hh.
    apply elem_of_app in Hh as [Hh|Hh]; [by apply before_defer_no_log with (c := c) in Hb|].
    destruct (Hlog r h0 Hb Hh) as (p & st & ? & ?); [|by exists p, st].
    intros ev Hev. assert (Hev' : ev ∈ hist i evs) by (rewrite Hn; apply elem_of_app; by left).
    by apply elem_of_hist in Hev' as [? _].
  - destruct Hroute as (r & h0 & Hb & Hn). rewrite Hn in Hh.
    apply elem_of_app in Hh as [Hh|Hh]; [by apply before_defer_no_log with (c := c) in Hb|].
    apply elem_of_app in Hh as [Hh|Hh]; [|by apply list_elem_of_singleton in Hh].
    destruct (Hlog r h0 Hb Hh) as (p & st & ? & ?); [|by exists p, st].
    intros ev Hev. assert (Hev' : ev ∈ hist i evs) by (rewrite Hn; apply elem_of_app; by left).
    by apply elem_of_hist in Hev' as [? _].
Qed.

Lemma logged_only_on_panic_witness :
  let tg := AddTasks [t_alpha; mkTasker "b" (Returns "v" (Some "failed")) None]
              (NewTaskGroup "g" [WithDuration 1000]) in
  let sched := [AWorker 0 true; AWorker 1 true; AWorker 1 true; AWorker 1 true;
                AWorker 0 true; AWorker 1 true] in
  exists s evs c,
    execution tg sched = Some (s, evs) /\
    logs evs = [c] /\ lc_err c = "boom".
Proof.
  intros tg sched.
  destruct (execution tg sched) as [[s evs]|] eqn:He; [|by vm_compute in He].
  assert (Hin : EvLogError 0 (panic_log tg 0 "boom"
                  ("goroutine 7 [running]:" ++ String LF "main.f")) ∈ evs).
  { vm_compute in He. injection He as <- <-. apply list_elem_of_further, list_elem_of_here. }
  destruct (logged_only_on_panic tg sched s evs 0 _ eq_refl He Hin) as (t & p & st & _ & Hc & _).
  exists s, evs, (panic_log tg 0 "boom" ("goroutine 7 [running]:" ++ String LF "main.f")).
  split; [done|]. split; [|done].
  vm_compute in He. injection He as <- <-. reflexivity.
Defined.

(** ** No crash, and bounds *)



(** ** A logger that does not return *)

Lemma step_logs tg s a s' e :
  log_Error (log tg) <> LogReturns -> step tg s a = Some (s', e) -> logs e = [].
Proof.
  intros Hlog Hs. unfold step in Hs. destruct (crashed s); [done|].
  destruct a as [j cj| | | |].
  - unfold step_worker, send_case, timeout_path, chan_send in Hs.
    destruct (workers s !! j) as [wj|]; simpl in Hs; [|done].
    repeat (match type of Hs with
            | context [match ?x with _ => _ end] => destruct x eqn:?
            | context [if ?x then _ else _] => destruct x eqn:?
            end; simpl in Hs; try done);
      by injection Hs as <- <-.
  - unfold step_waiter, chan_close in Hs.
    destruct (waiter s) as [[]|]; simpl in Hs; try done;
      repeat (match type of Hs with
              | context [match ?x with _ => _ end] => destruct x eqn:?
              | context [if ?x then _ else _] => destruct x eqn:?
              end; simpl in Hs; try done);
      by injection Hs as <- <-.
  - unfold step_collector, chan_close, chan_send in Hs.
    destruct (collector s) as [[]|]; simpl in Hs; try done;
      repeat (match type of Hs with
              | context [match ?x with _ => _ end] => destruct x eqn:?
              | context [if ?x then _ else _] => destruct x eqn:?
              end; simpl in Hs; try done);
      by injection Hs as <- <-.
  - unfold step_deadline in Hs. destruct (has_timer (rctx s)); [|done].
    by injection Hs as <- <-.
  - unfold step_parent in Hs. destruct (has_parent (rctx s)); [|done].
    by injection Hs as <- <-.
Qed.

Lemma no_logs_without_logger tg sched s evs :
  log_Error (log tg) <> LogReturns -> execution tg sched = Some (s, evs) -> logs evs = [].
Proof.
  intros Hlog Hex. unfold execution in Hex.
  destruct (exec tg (ExecChan tg).1 sched) as [[s1 evs1]|] eqn:He; [|done].
  injection Hex as <- <-.
  apply (exec_invariant tg (fun _ evs => logs evs = [])) with (sched := sched)
    (s := (ExecChan tg).1) (s' := s1); [| |done].
  - intros s0 evs0 a s' e Hl Hs. rewrite logs_app, Hl. by eapply step_logs.
  - unfold ExecChan. by destruct (check tg).
Qed.

(** When the logger's [Error] does not return (the logger is nil, or its
    method panics or blocks), no call of it ever completes, and a task whose
    Execute panics never completes either: its worker gets as far as the
    call of the logger, where it has no next step, and that call ends the
    process exactly when it panics.  Until then the WaitGroup counter stays
    positive and [done] stays open. *)
Theorem failing_logger_stops_worker tg sched s evs i t p st :
  check tg = None ->
  log_Error (log tg) <> LogReturns ->
  tasks tg !! i = Some t ->
  Execute t = Panics p st ->
  execution tg sched = Some (s, evs) ->
  logs evs = [] /\
  hist i evs = [] /\
  (0 < wg s)%nat /\
  closed (done s) = false /\
  exists w, workers s !! i = Some w /\
    ((w_pc w = WExecute /\
      forall c, step tg s (AWorker i c) =
                  Some (set_pc i w (WRecover (Some (p, st))) s, [])) \/
     (w_pc w = WRecover (Some (p, st)) /\
      forall c, step tg s (AWorker i c) = None /\
                fatal tg s (AWorker i c) =
                  match log_Error (log tg) with LogPanics => true | _ => false end)).
Proof.
  intros Hc Hlog Ht Hexe Hex. pose proof (inv_execution tg sched s evs Hc Hex) as HI.
  pose proof (no_logs_without_logger tg sched s evs Hlog Hex) as Hlogs.
  assert (Hlt : (i < length (workers s))%nat).
  { rewrite (inv_length _ _ _ HI). by eapply lookup_lt_Some. }
  destruct (lookup_lt_is_Some_2 _ _ Hlt) as [w Hi].
  destruct (inv_worker _ _ _ HI i w Hi) as (Ht' & _ & _).
  assert (Htask : w_task w = t) by congruence. rewrite <- Htask in Hexe.
  assert (Hnolog : forall c l, hist i evs = EvLogError i c :: l -> False).
  { intros c l Hh.
    assert (Hin : EvLogError i c ∈ hist i evs) by (rewrite Hh; apply list_elem_of_here).
    apply elem_of_hist in Hin as [Hin _].
    assert (Hc' : c ∈ logs evs).
    { unfold logs. apply list_elem_of_omap. by exists (EvLogError i c). }
    rewrite Hlogs in Hc'. by apply elem_of_nil in Hc'. }
  assert (Hpc : (w_pc w = WExecute \/ w_pc w = WRecover (Some (p, st))) /\ hist i evs = []).
  { destruct (panicking_worker tg s evs i w p st HI Hi Hexe)
      as [[Hp Hh]|[[Hp Hh]|[[Hp Hh]|[Hp Hh]]]];
      [split; [by left|done]|split; [by right|done]
      |by destruct (Hnolog _ _ Hh)|by destruct (Hnolog _ _ Hh)]. }
  destruct Hpc as [Hpc Hh].
  assert (Hrun : exited w = false).
  { unfold exited. by destruct Hpc as [-> | ->]. }
  assert (Hnall : forallb exited (workers s) = true -> False).
  { intros Hall. pose proof (forallb_exited_lookup _ _ _ Hall Hi) as Hx.
    by destruct Hpc as [Hp|Hp]; rewrite Hp in Hx. }
  split_and!; [done|done| | |].
  - rewrite (inv_wg _ _ _ HI). by eapply running_pos.
  - pose proof (inv_waiter _ _ _ HI) as Hwt. unfold waiter_ok in Hwt.
    destruct (waiter s) as [[]|]; [done|by destruct Hwt| |done].
    destruct Hwt as [_ Hall]. by destruct (Hnall Hall).
  - exists w. split; [done|].
    unfold step, step_worker, fatal. rewrite (inv_crashed _ _ _ HI), Hi. simpl.
    destruct Hpc as [Hp|Hp]; rewrite Hp; [left|right]; (split; [done|]); intros c.
    + by rewrite Hexe.
    + by destruct (log_Error (log tg)).
Qed.

Lemma failing_logger_stops_worker_witness :
  let tg := AddTasks [t_alpha; mkTasker "b" (Returns "v" None) None]
              (NewTaskGroup "g" [WithDuration 1000; WithCollectRet; WithLog nilLog]) in
  let sched := [AWorker 1 true; AWorker 0 true; AWorker 1 true] in
  exists s evs,
    execution tg sched = Some (s, evs) /\
    step tg s (AWorker 0 true) = None /\
    fatal tg s (AWorker 0 true) = true /\
    (0 < wg s)%nat.
Proof.
  intros tg sched.
  destruct (execution tg sched) as [[s evs]|] eqn:He; [|by vm_compute in He].
  exists s, evs. split; [done|].
  assert (Hlog : log_Error (log tg) <> LogReturns) by done.
  destruct (failing_logger_stops_worker tg sched s evs 0 t_alpha "boom"
              ("goroutine 7 [running]:" ++ String LF "main.f") eq_refl Hlog eq_refl
              eq_refl He) as (_ & _ & Hwg & _ & w & Hi & Hpc).
  assert (Hw : w_pc w <> WExecute).
  { vm_compute in He. injection He as <- <-. vm_compute in Hi. by injection Hi as <-. }
  destruct Hpc as [[Hp _]|[_ Hf]]; [done|].
  destruct (Hf true) as [Hstep Hfatal]. split_and!; done.
Defined.

(** ** A parent context that is already cancelled *)

Lemma after_cancel_run tg sched s evs i :
  check tg = None -> execution tg sched = Some (s, evs) ->
  parent_cancelled tg = true -> (i < length (tasks tg))%nat ->
  after_cancel i s evs.
Proof.
  intros Hc Hex Hp Hi. unfold execution in Hex.
  destruct (exec tg (ExecChan tg).1 sched) as [[s1 evs1]|] eqn:He; [|done].
  injection Hex as <- <-.
  assert (H0 : (ExecChan tg).2 = []) by (unfold ExecChan; by rewrite Hc).
  rewrite H0.
  assert (HP : Inv tg s1 ([] ++ evs1) /\ after_cancel i s1 ([] ++ evs1)); [|by destruct HP].
  apply (exec_invariant tg (fun s evs => Inv tg s evs /\ after_cancel i s evs))
    with (sched := sched) (s := (ExecChan tg).1); [| |done].
  - intros s0 evs0 a s2 e2 [HI0 HJ0] Hs. split; [by eapply inv_step|].
    by eapply after_cancel_step.
  - split; [by apply inv_init|].
    destruct (lookup_lt_is_Some_2 (tasks tg) i Hi) as [t Ht].
    assert (Hrun : run (tasks tg) !! i = Some (mkWorker t i WExecute)).
    { unfold run. by rewrite list_lookup_imap, Ht. }
    unfold ExecChan. rewrite Hc. simpl.
    split; [done|]. split_and!.
    + exists (mkWorker t i WExecute). by split.
    + intros r Hin. by apply elem_of_nil in Hin.
    + intros Hin. by apply elem_of_nil in Hin.
Qed.

(** When the group's context is already cancelled at the start of a run, no
    worker ever sends: nothing is collected, whatever the timeout and however
    fast the tasks are, and every returned pair goes to the timeout path. *)
Theorem cancelled_parent_collects_nothing tg sched s evs :
  check tg = None ->
  parent_cancelled tg = true ->
  execution tg sched = Some (s, evs) ->
  ctx_done s = true /\
  sends evs = [] /\
  (forall i, EvSendOnClosed i ∉ evs) /\
  (forall gr, gr ∈ delivered evs -> gr = mkGroupResult [] None).
Proof.
  intros Hc Hp Hex. pose proof (inv_execution tg sched s evs Hc Hex) as HI.
  assert (Hd : ctx_done s = true).
  { destruct (proj1 (check_None tg) Hc) as [Hne _].
    assert (Hlt : (0 < length (tasks tg))%nat) by (destruct (tasks tg); [done|simpl; lia]).
    by destruct (after_cancel_run tg sched s evs 0 Hc Hex Hp Hlt) as [? _]. }
  assert (Hs : sends evs = []).
  { destruct (sends evs) as [|[i r] l] eqn:Hse; [done|]. exfalso.
    assert (Hin : (i, r) ∈ sends evs) by (rewrite Hse; apply list_elem_of_here).
    assert (Hlt : (i < length (tasks tg))%nat).
    { apply (inv_sends _ _ _ HI). apply list_elem_of_fmap. by exists (i, r). }
    destruct (after_cancel_run tg sched s evs i Hc Hex Hp Hlt) as (_ & _ & Hns & _).
    apply (Hns r). by apply elem_of_sends. }
  split_and!; [done|done| |].
  - intros i Hin.
    destruct (decide (i < length (tasks tg))%nat) as [Hlt|Hge].
    + by destruct (after_cancel_run tg sched s evs i Hc Hex Hp Hlt) as (_ & _ & _ & ?).
    + assert (Hh : EvSendOnClosed i ∈ hist i evs).
      { apply elem_of_hist. split; [done|]. simpl. by rewrite bool_decide_eq_true_2. }
      rewrite (hist_out_of_range tg sched s evs i Hc Hex) in Hh by lia.
      by apply elem_of_nil in Hh.
  - intros gr Hin. destruct (valid_delivered tg sched s evs gr Hc Hex Hin) as [_ ->].
    unfold expected_results, sent_results. rewrite Hs. by destruct (collectResult tg).
Qed.

Lemma cancelled_parent_collects_nothing_witness :
  let tg := AddTask (mkTasker "a" (Returns "v" None) None)
              (NewTaskGroup "g" [WithDuration 1000; WithCollectRet;
                                 WithCtx (Some (Cancellable true))]) in
  let sched := [AWorker 0 false; AWorker 0 false; AWorker 0 false; AWorker 0 false;
                AWorker 0 false; ACollector; ACollector; ACollector; ACollector;
                ACollector] in
  exists s evs,
    execution tg sched = Some (s, evs) /\
    delivered evs = [mkGroupResult [] None] /\ sends evs = [].
Proof.
  intros tg sched.
  destruct (execution tg sched) as [[s evs]|] eqn:He; [|by vm_compute in He].
  exists s, evs. split; [done|].
  destruct (cancelled_parent_collects_nothing tg sched s evs eq_refl eq_refl He)
    as (_ & Hs & _).
  split; [|done]. vm_compute in He. injection He as <- <-. reflexivity.
Defined.

(** ** A task that never returns *)

(** A task whose Execute never returns keeps its worker in the call for
    ever: the WaitGroup counter never reaches zero, the goroutine waiting on
    it never closes [done], and the task produces no event at all.  The run
    itself is not held back: it still reaches its delivered outcome by timer
    and collector steps alone, without that task's result. *)
Theorem hanging_task_leaks_waiter tg sched s evs i t :
  check tg = None ->
  tasks tg !! i = Some t ->
  Execute t = Hangs ->
  execution tg sched = Some (s, evs) ->
  (w_pc <$> workers s !! i) = Some WExecute /\
  hist i evs = [] /\
  (0 < wg s)%nat /\
  waiter s = Some WtWait /\
  closed (done s) = false /\
  (forall c, step tg s (AWorker i c) = None) /\
  (exists sched' s' evs',
     no_worker_action sched' /\
     execution tg (sched ++ sched') = Some (s', evs ++ evs') /\
     closed (ch s') = true /\
     exists gr, delivered (evs ++ evs') = [gr] /\ forall r, (i, r) ∉ sends (evs ++ evs')).
Proof.
  intros Hc Ht Hexe Hex. pose proof (inv_execution tg sched s evs Hc Hex) as HI.
  assert (Hlt : (i < length (workers s))%nat).
  { rewrite (inv_length _ _ _ HI). by eapply lookup_lt_Some. }
  destruct (lookup_lt_is_Some_2 _ _ Hlt) as [w Hi].
  destruct (inv_worker _ _ _ HI i w Hi) as (Ht' & _ & Hroute).
  assert (Htask : w_task w = t) by congruence.
  assert (Hpc : w_pc w = WExecute /\ hist i evs = []).
  { unfold route_ok in Hroute. rewrite Htask in Hroute.
    assert (Hb : forall r h0, before_defer t i r h0 -> False).
    { intros r h0 Hb. unfold before_defer in Hb. rewrite Hexe in Hb.
      destruct r as [[p st]|]; [destruct Hb as [[? _]|(? & ? & ? & _)]; done|].
      by destruct Hb as (? & ? & ? & _). }
    destruct (w_pc w) as [|ret|ret|ret| |r| |].
    - done.
    - destruct Hroute as [Hr _]. by rewrite Hexe in Hr.
    - destruct Hroute as [Hr _]. by rewrite Hexe in Hr.
    - destruct Hroute as [Hr _]. by rewrite Hexe in Hr.
    - destruct Hroute as (? & ? & Hr & _). by rewrite Hexe in Hr.
    - by destruct (Hb _ _ Hroute).
    - destruct Hroute as (? & ? & Hr & _). by destruct (Hb _ _ Hr).
    - destruct Hroute as (? & ? & Hr & _). by destruct (Hb _ _ Hr). }
  destruct Hpc as [Hpc Hnil].
  assert (Hrun : exited w = false) by (unfold exited; by rewrite Hpc).
  assert (Hnotall : forallb exited (workers s) = true -> False).
  { intros Hall. pose proof (forallb_exited_lookup _ _ _ Hall Hi). congruence. }
  pose proof (inv_waiter _ _ _ HI) as Hwt. unfold waiter_ok in Hwt.
  split_and!.
  - by rewrite Hi; simpl; rewrite Hpc.
  - done.
  - rewrite (inv_wg _ _ _ HI). by eapply running_pos.
  - destruct (waiter s) as [[]|]; try done; by destruct Hwt as [_ ?%Hnotall].
  - destruct (waiter s) as [[]|]; try done; by destruct Hwt as [_ ?%Hnotall].
  - intros c. unfold step, step_worker. rewrite (inv_crashed _ _ _ HI), Hi. simpl.
    by rewrite Hpc, Htask, Hexe.
  - destruct (collector_finishes tg s evs HI) as (sched' & s' & evs' & Hnw & He2 & Hfin).
    pose proof (execution_app _ _ _ _ _ _ _ Hex He2) as Hex'.
    pose proof (inv_collector _ _ _ (inv_execution _ _ _ _ Hc Hex')) as Hcol.
    unfold collector_ok in Hcol. rewrite Hfin in Hcol. destruct Hcol as (_ & Hch & Hce & _).
    exists sched', s', evs'. split_and!; [done|done|by rewrite Hch|].
    eexists. rewrite delivered_ch_events, Hce. split; [done|].
    intros r Hin. apply elem_of_sends in Hin.
    assert (Hh : EvSend i r ∈ hist i (evs ++ evs')).
    { apply elem_of_hist. split; [done|]. simpl. by rewrite bool_decide_eq_true_2. }
    destruct (exec_no_worker _ _ _ _ _ Hnw He2) as [_ Hh2].
    rewrite hist_app, Hnil, Hh2 in Hh. by apply elem_of_nil in Hh.
Qed.

Lemma hanging_task_leaks_waiter_witness :
  let tg := AddTasks [mkTasker "stuck" Hangs None; mkTasker "b" (Returns "v" None) None]
              (NewTaskGroup "g" [WithDuration 1000; WithCollectRet]) in
  let sched := [AWorker 1 true; AWorker 1 true; AWorker 1 true; AWorker 1 true;
                AWorker 1 true; AWaiter] in
  execution tg sched = None /\
  exists s evs,
    execution tg (removelast sched) = Some (s, evs) /\
    waiter s = Some WtWait /\ closed (done s) = false.
Proof.
  intros tg sched. split; [reflexivity|].
  destruct (execution tg (removelast sched)) as [[s evs]|] eqn:He; [|by vm_compute in He].
  exists s, evs. split; [done|].
  destruct (hanging_task_leaks_waiter tg (removelast sched) s evs 0 _ eq_refl eq_refl
              eq_refl He) as (_ & _ & _ & Hw & Hd & _).
  done.
Defined.

(** ** The outcome channel *)

(** Only the collector moves the collector. *)
Lemma step_keeps_collector tg s a s' e :
  a <> ACollector -> step tg s a = Some (s', e) -> collector s' = collector s.
Proof.
  intros Ha Hs. unfold step in Hs. destruct (crashed s); [done|].
  destruct a as [j cj| | | |]; [| |done| |].
  - unfold step_worker, send_case, timeout_path, chan_send in Hs.
    destruct (workers s !! j) as [wj|]; simpl in Hs; [|done].
    repeat (match type of Hs with
            | context [match ?x with _ => _ end] => destruct x eqn:?
            | context [if ?x then _ else _] => destruct x eqn:?
            end; simpl in Hs; try done);
      by injection Hs as <- <-.
  - unfold step_waiter, chan_close in Hs.
    destruct (waiter s) as [[]|]; simpl in Hs; try done;
      repeat (match type of Hs with
              | context [if ?x then _ else _] => destruct x eqn:?
              end; simpl in Hs; try done);
      by injection Hs as <- <-.
  - unfold step_deadline in Hs. destruct (has_timer (rctx s)); [|done].
    by injection Hs as <- <-.
  - unfold step_parent in Hs. destruct (has_parent (rctx s)); [|done].
    by injection Hs as <- <-.
Qed.

(** [ch] is closed only at the end of a run that passed [check]: by then
    the one outcome has been delivered with a nil error, [retChan] is closed
    and the run's context has been cancelled, so the context is released on
    every such run. *)
Theorem ch_closed_only_after_delivery tg sched s evs :
  execution tg sched = Some (s, evs) ->
  closed (ch s) = true ->
  check tg = None /\
  collector s = Some CExit /\
  closed (retChan s) = true /\
  ctx_done s = true /\
  EvCancel ∈ evs /\
  exists rs, delivered evs = [mkGroupResult rs None] /\ buf (ch s) = [mkGroupResult rs None].
Proof.
  intros Hex Hcl. destruct (check tg) as [err|] eqn:Hc.
  - destruct (failed_execution tg err sched s evs Hc Hex) as (-> & -> & ->).
    unfold ExecChan in Hcl. by rewrite Hc in Hcl.
  - split; [done|].
    destruct (valid_ch_events tg sched s evs Hc Hex)
      as [(_ & _ & ?)|[(_ & _ & ?)|(Hce & Hbuf & _ & Hfin)]]; [congruence..|].
    pose proof (inv_execution tg sched s evs Hc Hex) as HI.
    pose proof (inv_collector _ _ _ HI) as Hcol. unfold collector_ok in Hcol.
    rewrite Hfin in Hcol. destruct Hcol as (Hrc & _ & _ & Hd).
    split_and!; [done|done|done| |].
    + clear Hce Hbuf. unfold execution in Hex.
      destruct (exec tg (ExecChan tg).1 sched) as [[s1 evs1]|] eqn:He; [|done].
      injection Hex as -> <-.
      assert (H0 : (ExecChan tg).2 = []) by (unfold ExecChan; by rewrite Hc).
      rewrite H0.
      assert (HP : collector s = Some CDeferClose \/ collector s = Some CExit ->
                   EvCancel ∈ [] ++ evs1); [|apply HP; by right].
      apply (exec_invariant tg (fun s evs =>
               collector s = Some CDeferClose \/ collector s = Some CExit -> EvCancel ∈ evs))
        with (sched := sched) (s := (ExecChan tg).1); [| |done].
      * intros s0 evs0 a s2 e2 HP0 Hs Hpc. apply elem_of_app.
        assert (Hdec : a = ACollector \/ a <> ACollector)
          by (destruct a; (by left) || (by right)).
        destruct Hdec as [->|Hne].
        -- unfold step in Hs. destruct (crashed s0); [done|].
           unfold step_collector, chan_close, chan_send in Hs.
           destruct (collector s0) as [[]|] eqn:Hc0; simpl in Hs; try done;
             repeat (match type of Hs with
                     | context [match ?x with _ => _ end] => destruct x eqn:?
                     | context [if ?x then _ else _] => destruct x eqn:?
                     end; simpl in Hs; try done);
             injection Hs as <- <-; simpl in Hpc; rewrite ?Hc0 in Hpc;
             first [ by destruct Hpc
                   | by right; apply list_elem_of_here
                   | left; apply HP0; by left
                   | left; apply HP0; by right ].
        -- left. apply HP0. by rewrite <- (step_keeps_collector _ _ _ _ _ Hne Hs).
      * unfold ExecChan. rewrite Hc. simpl. by intros [?|?].
    + eexists. rewrite delivered_ch_events, Hce. done.
Qed.

Lemma ch_closed_only_after_delivery_witness :
  let tg := AddTask (mkTasker "a" (Returns "v" None) None)
              (NewTaskGroup "g" [WithDuration 1000]) in
  let sched := [ADeadline; ACollector; ACollector; ACollector; ACollector;
                ACollector; ACollector] in
  exists s evs,
    execution tg sched = Some (s, evs) /\ closed (ch s) = true /\ ctx_done s = true.
Proof.
  intros tg sched.
  destruct (execution tg sched) as [[s evs]|] eqn:He; [|by vm_compute in He].
  exists s, evs. split; [done|].
  assert (Hcl : closed (ch s) = true).
  { vm_compute in He. by injection He as <- <-. }
  split; [done|].
  by destruct (ch_closed_only_after_delivery tg sched s evs He Hcl) as (_ & _ & _ & ? & _).
Defined.

(** ** Execute, the blocking accessor *)

Lemma execution_app_inv tg sched sched' s' evs' :
  execution tg (sched ++ sched') = Some (s', evs') ->
  exists s evs evs2,
    execution tg sched = Some (s, evs) /\ exec tg s sched' = Some (s', evs2) /\
    evs' = evs ++ evs2.
Proof.
  unfold execution. rewrite exec_app.
  destruct (exec tg (ExecChan tg).1 sched) as [[s1 evs1]|]; [|done].
  destruct (exec tg s1 sched') as [[s2 evs2]|] eqn:He2; [|done].
  intros [= <- <-]. exists s1, ((ExecChan tg).2 ++ evs1), evs2.
  split_and!; [done|done|]. by rewrite app_assoc.
Qed.

(** [Execute] receives from [ch] once.  Whatever the tasks do, the value
    arrives: every execution can be continued without any worker step to a
    point where Execute has returned.  What it returns does not change when
    the goroutines run on, its error is the error of [check], and with a
    validation error the results are empty. *)
Theorem Execute_returns_one_outcome tg sched s evs :
  execution tg sched = Some (s, evs) ->
  (exists sched' x, no_worker_action sched' /\ GroupExecute tg (sched ++ sched') = Some x) /\
  (forall x sched' s' evs',
     GroupExecute tg sched = Some x ->
     execution tg (sched ++ sched') = Some (s', evs') ->
     GroupExecute tg (sched ++ sched') = Some x) /\
  (forall rs err,
     GroupExecute tg sched = Some (rs, err) ->
     err = check tg /\ (err <> None -> rs = [])).
Proof.
  intros Hex. destruct (check tg) as [e0|] eqn:Hc.
  - destruct (failed_execution tg e0 sched s evs Hc Hex) as (-> & -> & ->).
    split_and!.
    + exists [], ([], Some e0). split; [constructor|]. unfold GroupExecute.
      by rewrite app_nil_r, Hex.
    + intros x sched' s' evs' Hx Hex'.
      destruct (failed_execution tg e0 _ s' evs' Hc Hex') as (-> & _). done.
    + intros rs err Hx. unfold GroupExecute in Hx. rewrite Hex in Hx. simpl in Hx.
      injection Hx as <- <-. done.
  - split_and!.
    + destruct (valid_run_completes tg sched s evs Hc Hex)
        as (sched' & s' & evs' & Hnw & Hex' & _ & Hce).
      exists sched'. eexists. split; [done|]. unfold GroupExecute. rewrite Hex'.
      rewrite delivered_ch_events, Hce. simpl. done.
    + intros x sched' s' evs' Hx Hex'. unfold GroupExecute in *.
      rewrite Hex in Hx. rewrite Hex'.
      destruct (delivered evs) as [|gr l] eqn:Hd; [done|]. injection Hx as <-.
      destruct (execution_app_inv _ _ _ _ _ Hex') as (s1 & evs1 & evs2 & Hex1 & _ & ->).
      rewrite Hex in Hex1. injection Hex1 as <- <-.
      assert (Hin : gr ∈ delivered (evs ++ evs2)).
      { rewrite delivered_app, Hd. apply list_elem_of_here. }
      destruct (valid_delivered tg _ _ _ gr Hc Hex' Hin) as [-> _]. done.
    + intros rs err Hx. unfold GroupExecute in Hx. rewrite Hex in Hx.
      destruct (delivered evs) as [|gr l] eqn:Hd; [done|]. injection Hx as <- <-.
      assert (Hin : gr ∈ delivered evs) by (rewrite Hd; apply list_elem_of_here).
      destruct (valid_delivered tg _ _ _ gr Hc Hex Hin) as [_ ->]. done.
Qed.

Lemma Execute_returns_one_outcome_witness :
  let tg := AddTasks [mkTasker "a" (Returns "v" None) None; mkTasker "b" Hangs None]
              (NewTaskGroup "g" [WithDuration 1000; WithCollectRet]) in
  let sched := [AWorker 0 true; AWorker 0 true; AWorker 0 true] in
  exists s evs,
    execution tg sched = Some (s, evs) /\
    GroupExecute tg sched = None /\
    exists sched' x, no_worker_action sched' /\ GroupExecute tg (sched ++ sched') = Some x.
Proof.
  intros tg sched.
  destruct (execution tg sched) as [[s evs]|] eqn:He; [|by vm_compute in He].
  exists s, evs. split; [done|]. split; [reflexivity|].
  apply (Execute_returns_one_outcome tg sched s evs He).
Defined.

(** ** Runs in which every task finishes before the deadline *)

Lemma exec_invariant_on tg (A : Action -> Prop) (P : State -> list Event -> Prop) :
  (forall s evs a s' e, A a -> P s evs -> step tg s a = Some (s', e) -> P s' (evs ++ e)) ->
  forall sched s pre s' evs,
    Forall A sched -> P s pre -> exec tg s sched = Some (s', evs) -> P s' (pre ++ evs).
Proof.
  intros Hstep. induction sched as [|a sched IH]; intros s pre s' evs HA HP Hex; simpl in Hex.
  - injection Hex as <- <-. by rewrite app_nil_r.
  - apply Forall_cons in HA as [Ha HA].
    destruct (step tg s a) as [[s1 evs1]|] eqn:Hs; [|done].
    destruct (exec tg s1 sched) as [[s2 evs2]|] eqn:He; [|done].
    injection Hex as <- <-. rewrite app_assoc. eapply IH; [done| |done]. eauto.
Qed.

(** The schedule contains neither the firing of the timer nor a
    cancellation of the parent context. *)
Definition ctx_quiet (a : Action) : Prop := a <> ADeadline /\ a <> AParentCancel.

Definition sent_or_panicked (i : nat) (w : Worker) (evs : list Event) : Prop :=
  match w_pc w with
  | WTimeout _ | WBlocked => False
  | WRecover _ | WWgDone | WExit =>
      (exists p st, Execute (w_task w) = Panics p st) \/ (exists r, EvSend i r ∈ evs)
  | _ => True
  end.

Definition before_deadline (s : State) (evs : list Event) : Prop :=
  (match collector s with
   | Some CDeferClose | Some CExit => True
   | _ => ctx_done s = false
   end) /\
  (match collector s with
   | Some CStart | Some CSelect => True
   | _ => forallb exited (workers s) = true
   end) /\
  (forall i w, workers s !! i = Some w -> sent_or_panicked i w evs) /\
  handler_calls evs = [].

Lemma closed_retChan_collector tg s evs :
  Inv tg s evs -> closed (retChan s) = true ->
  collector s <> Some CStart /\ collector s <> Some CSelect.
Proof.
  intros HI Hcl. pose proof (inv_collector _ _ _ HI) as Hcol. unfold collector_ok in Hcol.
  rewrite Hcl in Hcol. destruct (collector s) as [[]|]; try done; by destruct Hcol.
Qed.

Lemma before_deadline_worker tg s evs j c s' e :
  Inv tg s evs -> before_deadline s evs ->
  step_worker tg j c s = Some (s', e) -> before_deadline s' (evs ++ e).
Proof.
  intros HI (Hctx & Hall & Hw & Hh) Hstep.
  assert (Hcol : collector s' = collector s).
  { apply (step_keeps_collector tg s (AWorker j c) s' e); [done|].
    unfold step. by rewrite (inv_crashed _ _ _ HI). }
  unfold step_worker in Hstep.
  destruct (workers s !! j) as [w|] eqn:Hj; simpl in Hstep; [|done].
  destruct (inv_worker _ _ _ HI j w Hj) as (_ & Hidx & Hroute).
  assert (Hlive : w_pc w <> WExit -> forallb exited (workers s) = true -> False).
  { intros Hne Hx. by pose proof (forallb_exited_lookup _ _ _ Hx Hj). }
  assert (Hearly : w_pc w <> WExit ->
            (collector s = Some CStart \/ collector s = Some CSelect) /\ ctx_done s = false).
  { intros Hne. destruct (collector s) as [[]|]; try (by destruct (Hlive Hne Hall)); auto. }
  pose proof (Hw j w Hj) as Hsp. unfold sent_or_panicked in Hsp.
  assert (Hframe : forall pc' e',
     workers s' = <[j := mkWorker (w_task w) (w_index w) pc']> (workers s) ->
     sent_or_panicked j (mkWorker (w_task w) (w_index w) pc') (evs ++ e') ->
     handler_calls e' = [] -> ctx_done s' = ctx_done s ->
     w_pc w <> WExit ->
     before_deadline s' (evs ++ e')).
  { intros pc' e' Hws Hnew He' Hd Hne. destruct (Hearly Hne) as [Hc0 Hd0].
    unfold before_deadline. rewrite Hcol, Hd, Hws.
    split_and!.
    - by destruct Hc0 as [-> | ->].
    - by destruct Hc0 as [-> | ->].
    - intros i wi Hi. destruct (decide (j = i)) as [<-|Hji].
      + rewrite list_lookup_insert_eq in Hi by (by eapply lookup_lt_Some).
        by injection Hi as <-.
      + rewrite list_lookup_insert_ne in Hi by done.
        pose proof (Hw i wi Hi) as Hsi. unfold sent_or_panicked in *.
        destruct (w_pc wi); try done;
          (destruct Hsi as [?|[r0 Hr]]; [by left|right; exists r0; apply elem_of_app; by left]).
    - by rewrite handler_calls_app, Hh, He'. }
  assert (Hkeep : forall e',
     (exists p st, Execute (w_task w) = Panics p st) \/ (exists r0, EvSend j r0 ∈ evs) ->
     (exists p st, Execute (w_task w) = Panics p st) \/ (exists r0, EvSend j r0 ∈ evs ++ e')).
  { intros e' [?|[r0 Hr]]; [by left|right; exists r0; apply elem_of_app; by left]. }
  destruct (w_pc w) as [|ret|ret|ret| |r| |] eqn:Hpc; try done.
  - (* WExecute *)
    destruct (Execute (w_task w)) as [v er|p st|] eqn:Hexe; [| |done];
      injection Hstep as <- <-; (eapply Hframe; [reflexivity|..]; try done).
    unfold sent_or_panicked. simpl. left. by exists p, st.
  - (* WSelect *)
    destruct (Hearly ltac:(done)) as [_ Hd0]. rewrite Hd0 in Hstep.
    injection Hstep as <- <-. eapply Hframe; [reflexivity|..]; done.
  - (* WRace *)
    destruct (Hearly ltac:(done)) as [Hc0 Hd0]. rewrite Hd0 in Hstep.
    destruct (send_ready (retChan s)); [|done].
    unfold send_case, chan_send in Hstep.
    destruct (closed (retChan s)) eqn:Hcl.
    { destruct (closed_retChan_collector tg s evs HI Hcl). by destruct Hc0. }
    destruct (length (buf (retChan s)) <? cap (retChan s))%nat; [|done].
    injection Hstep as <- <-. eapply Hframe; [reflexivity|..]; try done.
    unfold sent_or_panicked. simpl. right. exists ret.
    apply elem_of_app. right. rewrite Hidx. apply list_elem_of_here.
  - (* WRecover *)
    destruct r as [[p st]|]; [destruct (log_Error (log tg)); [|done|done]|];
      injection Hstep as <- <-;
      (eapply Hframe; [reflexivity|..]; try done);
      unfold sent_or_panicked; simpl; by apply Hkeep.
  - (* WWgDone *)
    destruct (wg s) as [|n]; injection Hstep as <- <-.
    + unfold before_deadline. simpl. rewrite app_nil_r. done.
    + eapply Hframe; [reflexivity|..]; try done.
      unfold sent_or_panicked; simpl; by apply Hkeep.
Qed.

Lemma before_deadline_step tg s evs a s' e :
  isTimeout tg = true -> ctx_quiet a ->
  Inv tg s evs -> before_deadline s evs ->
  step tg s a = Some (s', e) -> before_deadline s' (evs ++ e).
Proof.
  intros Hto [Hq1 Hq2] HI HB Hstep. pose proof HB as (Hctx & Hall & Hw & Hh).
  unfold step in Hstep. rewrite (inv_crashed _ _ _ HI) in Hstep.
  assert (Hgrow : forall s1 e1, workers s1 = workers s ->
            forall i w, workers s1 !! i = Some w -> sent_or_panicked i w (evs ++ e1)).
  { intros s1 e1 Hws i w Hi. rewrite Hws in Hi. pose proof (Hw i w Hi) as Hsi.
    unfold sent_or_panicked in *. destruct (w_pc w); try done;
      (destruct Hsi as [?|[r0 Hr]]; [by left|right; exists r0; apply elem_of_app; by left]). }
  destruct a as [j c| | | |]; [by eapply before_deadline_worker| | |done|done].
  - unfold step_waiter, chan_close in Hstep.
    destruct (waiter s) as [[]|]; simpl in Hstep; try done.
    + destruct (wg s =? 0)%nat; [|done]. injection Hstep as <- <-.
      unfold before_deadline. rewrite app_nil_r. done.
    + destruct (closed (done s)); injection Hstep as <- <-.
      * unfold before_deadline. rewrite app_nil_r. done.
      * split_and!; [done|done|by apply Hgrow|by rewrite handler_calls_app, Hh].
  - pose proof (inv_collector _ _ _ HI) as Hcol. unfold collector_ok in Hcol.
    pose proof (inv_waiter _ _ _ HI) as Hwt. unfold waiter_ok in Hwt.
    unfold step_collector, chan_close, chan_send in Hstep.
    destruct (collector s) as [[]|] eqn:Hc0; simpl in Hstep; try done.
    + rewrite Hto in Hstep. simpl in Hstep. injection Hstep as <- <-.
      split_and!; [done|done|by apply Hgrow|by rewrite handler_calls_app, Hh].
    + rewrite Hctx in Hstep. simpl in Hstep.
      destruct (closed (done s)) eqn:Hdn; [|done]. injection Hstep as <- <-.
      split_and!; [done| |by apply Hgrow|by rewrite handler_calls_app, Hh].
      simpl. destruct (waiter s) as [[]|]; try done; by destruct Hwt.
    + destruct (closed (retChan s)); injection Hstep as <- <-.
      * unfold before_deadline. simpl. rewrite Hc0, app_nil_r. done.
      * split_and!; [by destruct (collectResult tg)|by destruct (collectResult tg)
                    |by apply Hgrow|by rewrite handler_calls_app, Hh].
    + destruct (buf (retChan s)); [destruct (closed (retChan s)); [|done]|];
        injection Hstep as <- <-;
        (split_and!; [done|done|by apply Hgrow|by rewrite handler_calls_app, Hh]).
    + destruct (closed (ch s)); [injection Hstep as <- <-|].
      * unfold before_deadline. simpl. rewrite Hc0, app_nil_r. done.
      * destruct (length (buf (ch s)) <? cap (ch s))%nat; [|done].
        injection Hstep as <- <-.
        split_and!; [done|done|by apply Hgrow|by rewrite handler_calls_app, Hh].
    + injection Hstep as <- <-.
      split_and!; [done|done|by apply Hgrow|by rewrite handler_calls_app, Hh].
    + destruct (closed (ch s)); injection Hstep as <- <-.
      * unfold before_deadline. simpl. rewrite Hc0, app_nil_r. done.
      * split_and!; [done|done|by apply Hgrow|by rewrite handler_calls_app, Hh].
Qed.

Lemma before_deadline_init tg :
  check tg = None -> parent_cancelled tg = false ->
  before_deadline (ExecChan tg).1 [].
Proof.
  intros Hc Hp. unfold ExecChan. rewrite Hc. unfold before_deadline. simpl.
  split_and!; [done|done| |done].
  intros i w Hw. apply run_lookup in Hw as (_ & _ & Hpc).
  unfold sent_or_panicked. by rewrite Hpc.
Qed.

Lemma before_deadline_execution tg sched s evs :
  check tg = None -> isTimeout tg = true -> parent_cancelled tg = false ->
  Forall ctx_quiet sched ->
  execution tg sched = Some (s, evs) ->
  Inv tg s evs /\ before_deadline s evs.
Proof.
  intros Hc Hto Hp Hq Hex. unfold execution in Hex.
  destruct (exec tg (ExecChan tg).1 sched) as [[s1 evs1]|] eqn:He; [|done].
  injection Hex as <- <-.
  assert (Hnil : (ExecChan tg).2 = []) by (unfold ExecChan; by rewrite Hc).
  rewrite Hnil.
  apply (exec_invariant_on tg ctx_quiet (fun s evs => Inv tg s evs /\ before_deadline s evs))
    with (sched := sched) (s := (ExecChan tg).1); [|done| |done].
  - intros s0 evs0 a s' e Ha [HI HB] Hs. split.
    + by eapply inv_step.
    + by eapply before_deadline_step.
  - split; [by apply inv_init|by apply before_deadline_init].
Qed.

(** When no deadline fires and the parent context is not cancelled before
    the outcome is delivered, every task has finished by then, no timeout
    handler has been called, and the result of every task that returned
    has been sent, and is in the outcome when collection is enabled. *)
Theorem finished_before_deadline tg sched s evs gr :
  check tg = None -> isTimeout tg = true -> parent_cancelled tg = false ->
  Forall ctx_quiet sched ->
  execution tg sched = Some (s, evs) ->
  gr ∈ delivered evs ->
  handler_calls evs = [] /\
  forallb exited (workers s) = true /\
  (forall i t v e, tasks tg !! i = Some t -> Execute t = Returns v e ->
     (i, mkResult v e) ∈ sends evs) /\
  (collectResult tg = true ->
   forall i t v e, tasks tg !! i = Some t -> Execute t = Returns v e ->
     mkResult v e ∈ Results gr).
Proof.
  intros Hc Hto Hp Hq Hex Hin.
  destruct (before_deadline_execution tg sched s evs Hc Hto Hp Hq Hex)
    as [HI (Hctx & Hall & Hw & Hh)].
  destruct (valid_delivered tg sched s evs gr Hc Hex Hin) as [Hd ->].
  assert (Hx : forallb exited (workers s) = true).
  { pose proof (inv_collector _ _ _ HI) as Hcol. unfold collector_ok in Hcol.
    rewrite delivered_ch_events in Hd.
    destruct (collector s) as [[]|]; try done;
      first [ by destruct Hcol as (_ & _ & _ & Hce & _); rewrite Hce in Hd
            | by destruct Hcol as (_ & _ & _ & Hce); rewrite Hce in Hd
            | by destruct Hcol as (_ & _ & _ & _ & Hce & _); rewrite Hce in Hd ]. }
  assert (Hsent : forall i t v e, tasks tg !! i = Some t -> Execute t = Returns v e ->
            (i, mkResult v e) ∈ sends evs).
  { intros i t v e Ht Hexe.
    assert (Hlt : (i < length (workers s))%nat).
    { rewrite (inv_length _ _ _ HI). by eapply lookup_lt_Some. }
    destruct (lookup_lt_is_Some_2 _ _ Hlt) as [w Hwi].
    destruct (inv_worker _ _ _ HI i w Hwi) as (Ht' & _ & _).
    rewrite Ht in Ht'. injection Ht' as ->.
    pose proof (forallb_exited_lookup _ _ _ Hx Hwi) as Hpc.
    pose proof (Hw i w Hwi) as Hs. unfold sent_or_panicked in Hs. rewrite Hpc in Hs.
    destruct Hs as [(p & st & Hp')|[r Hr]]; [by rewrite Hexe in Hp'|].
    apply elem_of_sends in Hr.
    destruct (sent_is_returned tg s evs i r HI Hr) as (t' & Ht' & Hexe').
    rewrite Ht in Ht'. injection Ht' as <-. rewrite Hexe in Hexe'.
    injection Hexe' as -> ->. by destruct r. }
  split_and!; [done|done|done|].
  intros Hcr i t v e Ht Hexe. simpl. unfold expected_results, sent_results. rewrite Hcr.
  apply list_elem_of_fmap. exists (i, mkResult v e). split; [done|]. by eapply Hsent.
Qed.

Lemma finished_before_deadline_witness :
  let tg := AddTasks [mkTasker "a" (Returns "v" None) (Some HReturns);
                      mkTasker "b" (Panics "boom" "stack") None]
              (NewTaskGroup "g" [WithDuration 1000; WithCollectRet]) in
  let sched := [AWorker 0 false; AWorker 0 false; AWorker 0 false; AWorker 0 false;
                AWorker 0 false; AWorker 1 false; AWorker 1 false; AWorker 1 false;
                AWaiter; AWaiter;
                ACollector; ACollector; ACollector; ACollector; ACollector; ACollector] in
  exists s evs,
    execution tg sched = Some (s, evs) /\
    handler_calls evs = [] /\
    mkResult "v" None ∈ sent_results evs.
Proof.
  intros tg sched.
  destruct (execution tg sched) as [[s evs]|] eqn:He; [|by vm_compute in He].
  exists s, evs. split; [done|].
  assert (Hq : Forall ctx_quiet sched).
  { unfold sched. repeat (constructor; [split; discriminate|]). constructor. }
  assert (Hin : mkGroupResult [mkResult "v" None] None ∈ delivered evs).
  { vm_compute in He. injection He as <- <-. vm_compute. repeat constructor. }
  destruct (finished_before_deadline tg sched s evs _ eq_refl eq_refl eq_refl Hq He Hin)
    as (Hh & _ & Hs & _).
  split; [done|].
  unfold sent_results. apply list_elem_of_fmap. exists (0%nat, mkResult "v" None).
  split; [done|]. by apply (Hs 0%nat (mkTasker "a" (Returns "v" None) (Some HReturns))).
Defined.

(** ** A worker is never blocked by the result channel *)

Definition wrank (pc : WorkerPc) : nat :=
  match pc with
  | WExecute => 6
  | WSelect _ => 5
  | WRace _ => 4
  | WTimeout _ => 3
  | WBlocked => 3
  | WRecover _ => 2
  | WWgDone => 1
  | WExit => 0
  end.

Definition own_action (i : nat) (a : Action) : Prop := exists c, a = AWorker i c.

Lemma worker_progress tg s evs i w :
  Inv tg s evs -> workers s !! i = Some w ->
  log_Error (log tg) = LogReturns ->
  Execute (w_task w) <> Hangs -> TimeoutHandler (w_task w) <> Some HHangs ->
  w_pc w <> WExit ->
  exists c s' e w',
    step tg s (AWorker i c) = Some (s', e) /\
    workers s' !! i = Some w' /\ w_task w' = w_task w /\
    (wrank (w_pc w') < wrank (w_pc w))%nat.
Proof.
  intros HI Hi Hlog Hex Hth Hne.
  assert (Hlt : (i < length (workers s))%nat) by (by eapply lookup_lt_Some).
  destruct (inv_worker _ _ _ HI i w Hi) as (_ & _ & Hroute). unfold route_ok in Hroute.
  unfold step. rewrite (inv_crashed _ _ _ HI). unfold step_worker. rewrite Hi. simpl.
  assert (Hset : forall pc s0, workers s0 = workers s ->
            workers (set_pc i w pc s0) !! i = Some (mkWorker (w_task w) (w_index w) pc)).
  { intros pc s0 Hs0. simpl. rewrite Hs0. by apply list_lookup_insert_eq. }
  destruct (w_pc w) as [|ret|ret|ret| |r| |] eqn:Hpc.
  - destruct (Execute (w_task w)) as [v er|p st|]; [| |done];
      exists false; eexists _, _, _; (split_and!; [done|by apply Hset|done|simpl; lia]).
  - exists false. destruct (ctx_done s);
      eexists _, _, _; (split_and!; [done|by apply Hset|done|simpl; lia]).
  - destruct (race_send_ready tg s evs i w ret HI Hi Hpc) as (Hrdy & Hcl & Hopen).
    rewrite Hrdy. exists true. destruct (ctx_done s) eqn:Hd.
    + eexists _, _, _; (split_and!; [done|by apply Hset|done|simpl; lia]).
    + unfold send_case, chan_send.
      destruct (closed (retChan s)) eqn:Hc; [by specialize (Hcl eq_refl)|].
      specialize (Hopen eq_refl). apply Nat.ltb_lt in Hopen. rewrite Hopen.
      eexists _, _, _; (split_and!; [done|by apply Hset|done|simpl; lia]).
  - exists false. unfold timeout_path.
    destruct (TimeoutHandler (w_task w)) as [[| |]|]; [| |done|];
      eexists _, _, _; (split_and!; [done|by apply Hset|done|simpl; lia]).
  - by destruct Hroute as (v & e & _ & Hh & _).
  - exists false. destruct r as [[p st]|]; rewrite ?Hlog;
      eexists _, _, _; (split_and!; [done|by apply Hset|done|simpl; lia]).
  - exists false.
    assert (Hpos : (0 < wg s)%nat).
    { rewrite (inv_wg _ _ _ HI). apply (running_pos _ i w Hi). unfold exited. by rewrite Hpc. }
    destruct (wg s) as [|n]; [lia|].
    eexists _, _, _; (split_and!; [done|by apply Hset|done|simpl; lia]).
  - done.
Qed.

Lemma worker_finishes_rank tg i n :
  forall s evs w,
    (wrank (w_pc w) <= n)%nat -> Inv tg s evs -> workers s !! i = Some w ->
    log_Error (log tg) = LogReturns ->
    Execute (w_task w) <> Hangs -> TimeoutHandler (w_task w) <> Some HHangs ->
    exists sched s' evs' w',
      Forall (own_action i) sched /\ exec tg s sched = Some (s', evs') /\
      workers s' !! i = Some w' /\ w_pc w' = WExit.
Proof.
  induction n as [|n IH]; intros s evs w Hr HI Hi Hlog Hex Hth.
  - exists [], s, [], w. split_and!; [constructor|done|done|].
    destruct (w_pc w); simpl in Hr; try lia. done.
  - assert (Hdec : w_pc w = WExit \/ w_pc w <> WExit)
      by (destruct (w_pc w); first [by left | by right]).
    destruct Hdec as [He|Hne].
    + exists [], s, [], w. split_and!; [constructor|done|done|done].
    + destruct (worker_progress tg s evs i w HI Hi Hlog Hex Hth Hne)
        as (c & s1 & e & w1 & Hstep & Hi1 & Ht1 & Hlt).
      destruct (IH s1 (evs ++ e) w1) as (sched & s' & evs' & w' & Hown & Hexec & Hi' & Hpc').
      * lia.
      * by eapply inv_step.
      * done.
      * done.
      * by rewrite Ht1.
      * by rewrite Ht1.
      * exists (AWorker i c :: sched), s', (e ++ evs'), w'.
        split_and!; [constructor; [by exists c|done]| |done|done].
        simpl. by rewrite Hstep, Hexec.
Qed.

(** When the logger's [Error] returns, a task whose [Execute] comes back
    and whose timeout handler, if any, comes back can always run to its end
    by its own steps alone, whatever the other goroutines have done: the
    send into [retChan] never blocks, a panic on the way is logged, and
    [wg.Done] never brings the counter below zero. *)
Theorem worker_never_blocks tg sched s evs i t :
  check tg = None ->
  log_Error (log tg) = LogReturns ->
  tasks tg !! i = Some t ->
  Execute t <> Hangs -> TimeoutHandler t <> Some HHangs ->
  execution tg sched = Some (s, evs) ->
  exists sched' s' evs',
    Forall (own_action i) sched' /\
    execution tg (sched ++ sched') = Some (s', evs ++ evs') /\
    (w_pc <$> workers s' !! i) = Some WExit /\
    EvWgDone i ∈ evs ++ evs'.
Proof.
  intros Hc Hlog Ht Hex Hth Hrun.
  pose proof (inv_execution tg sched s evs Hc Hrun) as HI.
  assert (Hlt : (i < length (workers s))%nat).
  { rewrite (inv_length _ _ _ HI). by eapply lookup_lt_Some. }
  destruct (lookup_lt_is_Some_2 _ _ Hlt) as [w Hi].
  destruct (inv_worker _ _ _ HI i w Hi) as (Ht' & _ & _).
  rewrite Ht in Ht'. injection Ht' as ->.
  destruct (worker_finishes_rank tg i (wrank (w_pc w)) s evs w) as
    (sched' & s' & evs' & w' & Hown & Hexec & Hi' & Hpc'); [lia|done..|].
  exists sched', s', evs'.
  pose proof (execution_app _ _ _ _ _ _ _ Hrun Hexec) as Hfull.
  split_and!; [done|done|by rewrite Hi'; simpl; rewrite Hpc'|].
  pose proof (inv_execution _ _ _ _ Hc Hfull) as HI'.
  destruct (inv_worker _ _ _ HI' i w' Hi') as (_ & _ & Hroute).
  unfold route_ok in Hroute. rewrite Hpc' in Hroute.
  destruct Hroute as (r & h0 & _ & Hh).
  assert (Hin : EvWgDone i ∈ hist i (evs ++ evs')).
  { rewrite Hh, !elem_of_app. right. right. apply list_elem_of_here. }
  by apply elem_of_hist in Hin as [Hin _].
Qed.

Lemma worker_never_blocks_witness :
  let tg := AddTasks [mkTasker "a" (Returns "v" None) (Some HReturns);
                      mkTasker "b" (Panics "boom" "stack") None]
              (NewTaskGroup "g" [WithDuration 1000; WithCollectRet;
                                 WithLog (customLog "l" LogReturns)]) in
  let sched := [AWorker 0 false; AWorker 0 false; ADeadline; ACollector; ACollector;
                ACollector] in
  exists sched' s' evs',
    Forall (own_action 1) sched' /\
    execution tg (sched ++ sched') = Some (s', evs') /\
    (w_pc <$> workers s' !! 1%nat) = Some WExit.
Proof.
  intros tg sched.
  destruct (execution tg sched) as [[s evs]|] eqn:He; [|by vm_compute in He].
  assert (Hex : Execute (mkTasker "b" (Panics "boom" "stack") None) <> Hangs) by done.
  assert (Hth : TimeoutHandler (mkTasker "b" (Panics "boom" "stack") None) <> Some HHangs)
    by done.
  destruct (worker_never_blocks tg sched s evs 1%nat _ eq_refl eq_refl eq_refl Hex Hth He)
    as (sched' & s' & evs' & Hown & Hrun & Hpc & _).
  by exists sched', s', (evs ++ evs').
Defined.
